(** * Ghost-Finder: the frame-processing pipeline of [counter.py] and [app.py]

    A shallow embedding of [CentroidTracker] and [PeopleCounter]
    (src/counter.py) and of [current_stats] (src/app.py), with the
    properties of the specification stated over it.

    Conventions of the embedding.
    - Python integers are [Z].
    - [self.objects] and [new_objects] are Python dicts whose iteration
      order (insertion order) is observable by the matching loop, so they
      are association lists with the dict's update-in-place / append
      behaviour ([dict_set]).
    - [self.disappeared] and [self.last_seen] are only read and written by
      key, so they are [gmap Z Z]; [used_ids] and the [active_ids] set of
      [generate_frames] are [gset Z].
    - [math.hypot] is applied to integer pixel offsets and its result is only
      ever compared ([dist < best_dist], [dist < self.max_distance]); the
      embedding keeps the exact squared distance and compares squares.  The
      code compares the doubles that [math.hypot] returns.  For coordinates
      within [in_pixel_range] (magnitude at most 65536) the sum of squares is
      below 2^36 and exactly representable, [math.hypot] returns the
      correctly rounded square root of it, and two such roots are at least
      2^-19 apart where a double near them resolves 2^-35: equal sums give
      equal doubles, different sums give doubles in the same strict order,
      and a root is strictly under an integer [max_distance] exactly when
      its double is.  From offsets of about 2^26 on the doubles of different
      sums can coincide, and a double can fall on the other side of
      [max_distance]: the properties that say which identity a detection
      matches are therefore stated for coordinates within [in_pixel_range];
      the others hold whatever the scan picks.
    - Detector confidences are rationals ([Q]). *)

From Stdlib Require Import ZArith QArith Lia.
From stdpp Require Import base gmap sets list list_numbers strings.

Local Open Scope Z_scope.

(** ** Python dicts with observable insertion order *)

Section dict.
Context {V : Type}.

Fixpoint dict_get (d : list (Z * V)) (k : Z) : option V :=
  match d with
  | [] => None
  | (k', v) :: r => if decide (k' = k) then Some v else dict_get r k
  end.

(** [d[k] = v]: an existing key keeps its position, a new key goes last. *)
Fixpoint dict_set (d : list (Z * V)) (k : Z) (v : V) : list (Z * V) :=
  match d with
  | [] => [(k, v)]
  | (k', v') :: r =>
      if decide (k' = k) then (k', v) :: r else (k', v') :: dict_set r k v
  end.

Definition dict_keys (d : list (Z * V)) : list Z := d.*1.

(** [k in d] *)
Definition dict_has (d : list (Z * V)) (k : Z) : bool :=
  bool_decide (k ∈ dict_keys d).
End dict.

(** ** CentroidTracker *)

Definition point : Type := Z * Z.

Record CentroidTracker := mkTracker {
  next_id : Z;
  objects : list (Z * point);      (* id -> (cx, cy) *)
  disappeared : gmap Z Z;          (* id -> frames since last seen *)
  max_distance : Z;
  max_disappeared : Z
}.

(** [CentroidTracker.__init__] *)
Definition CentroidTracker_init (max_distance max_disappeared : Z)
  : CentroidTracker :=
  mkTracker 0 [] ∅ max_distance max_disappeared.

(** Square of [math.hypot(dx, dy)], exact.  It stands for the double the
    code computes only in comparisons, and only for offsets between
    coordinates within [in_pixel_range] (see the conventions above). *)
Definition hypot2 (dx dy : Z) : Z := dx * dx + dy * dy.

(** [dist < best_dist], where [best_dist] starts at [float("inf")]: the
    comparison of the two doubles, which for coordinates within
    [in_pixel_range] is the comparison of the exact squares. *)
Definition lt_best (dist2 : Z) (best_dist : option Z) : bool :=
  match best_dist with
  | None => true
  | Some b => dist2 <? b
  end.

(** [dist < self.max_distance] for the double [dist >= 0] and an integer
    [max_distance]; for coordinates within [in_pixel_range] it holds exactly
    when [max_distance] is positive and the exact square is under its
    square. *)
Definition lt_max (dist2 max_distance : Z) : bool :=
  (0 <? max_distance) && (dist2 <? max_distance * max_distance).

(** The inner loop of [update] (lines 45-51): one pass over
    [self.objects.items()] for the detection [(cx, cy)]. *)
Fixpoint scan_objects (items : list (Z * point)) (used_ids : gset Z)
    (c : point) (max_distance : Z) (best_id best_dist : option Z)
  : option Z :=
  match items with
  | [] => best_id
  | (obj_id, (ox, oy)) :: rest =>
      if decide (obj_id ∈ used_ids) then
        scan_objects rest used_ids c max_distance best_id best_dist
      else
        let dist := hypot2 (c.1 - ox) (c.2 - oy) in
        if lt_best dist best_dist && lt_max dist max_distance then
          scan_objects rest used_ids c max_distance (Some obj_id) (Some dist)
        else
          scan_objects rest used_ids c max_distance best_id best_dist
  end.

(** The variables the greedy loop (lines 42-64) reads and writes. *)
Record MatchState := mkMatch {
  m_new_objects : list (Z * point);
  m_used_ids : gset Z;
  m_disappeared : gmap Z Z;
  m_next_id : Z;
  m_assignments : list Z
}.

(** Body of the greedy loop for detection number [i]. *)
Definition match_step (objs : list (Z * point)) (max_distance : Z)
    (i : nat) (c : point) (s : MatchState) : MatchState :=
  match scan_objects objs (m_used_ids s) c max_distance None None with
  | None =>
      mkMatch (dict_set (m_new_objects s) (m_next_id s) c)
              ({[m_next_id s]} ∪ m_used_ids s)
              (<[m_next_id s := 0]> (m_disappeared s))
              (m_next_id s + 1)
              (<[i := m_next_id s]> (m_assignments s))
  | Some best_id =>
      mkMatch (dict_set (m_new_objects s) best_id c)
              ({[best_id]} ∪ m_used_ids s)
              (<[best_id := 0]> (m_disappeared s))
              (m_next_id s)
              (<[i := best_id]> (m_assignments s))
  end.

Fixpoint match_loop (objs : list (Z * point)) (max_distance : Z)
    (i : nat) (detections : list point) (s : MatchState) : MatchState :=
  match detections with
  | [] => s
  | c :: rest =>
      match_loop objs max_distance (S i) rest (match_step objs max_distance i c s)
  end.

(** The loop over [self.objects.keys()] (lines 67-72). *)
Fixpoint age_loop (objs : list (Z * point)) (max_disappeared : Z)
    (keys : list Z) (new_objects : list (Z * point)) (dis : gmap Z Z)
  : list (Z * point) * gmap Z Z :=
  match keys with
  | [] => (new_objects, dis)
  | obj_id :: rest =>
      if dict_has new_objects obj_id then
        age_loop objs max_disappeared rest new_objects dis
      else
        let d := default 0 (dis !! obj_id) + 1 in
        let new_objects' :=
          if d <=? max_disappeared then
            match dict_get objs obj_id with
            | Some p => dict_set new_objects obj_id p
            | None => new_objects
            end
          else new_objects in
        age_loop objs max_disappeared rest new_objects' (<[obj_id := d]> dis)
  end.

(** The registration loop taken when nothing is tracked (lines 30-36). *)
Fixpoint register_loop (i : nat) (detections : list point)
    (t : CentroidTracker) (assignments : list Z) : CentroidTracker * list Z :=
  match detections with
  | [] => (t, assignments)
  | c :: rest =>
      register_loop (S i) rest
        (mkTracker (next_id t + 1)
                   (dict_set (objects t) (next_id t) c)
                   (<[next_id t := 0]> (disappeared t))
                   (max_distance t) (max_disappeared t))
        (<[i := next_id t]> assignments)
  end.

(** [CentroidTracker.update]: the tracker afterwards (whose [objects] is the
    returned dict) and the returned assignment list. *)
Definition update (t : CentroidTracker) (detections : list point)
  : CentroidTracker * list Z :=
  let assignments := replicate (length detections) (-1) in
  if (length (objects t) =? 0)%nat then
    register_loop 0 detections t assignments
  else
    let s := match_loop (objects t) (max_distance t) 0 detections
               (mkMatch [] ∅ (disappeared t) (next_id t) assignments) in
    let '(new_objects, dis) :=
      age_loop (objects t) (max_disappeared t) (dict_keys (objects t))
               (m_new_objects s) (m_disappeared s) in
    (mkTracker (m_next_id s) new_objects dis
               (max_distance t) (max_disappeared t),
     m_assignments s).

(** Squared distance between a detection and a stored centroid. *)
Definition dist2 (c p : point) : Z := hypot2 (c.1 - p.1) (c.2 - p.2).

(** The id the greedy loop gives to detection [c] when the detections before
    it were given the ids [earlier]: the scan's choice among the identities
    not in [earlier], else the next id not yet handed out. *)
Definition greedy_choice (objs : list (Z * point)) (max_distance n0 : Z)
    (earlier : list Z) (c : point) : Z :=
  match scan_objects objs (list_to_set earlier) c max_distance None None with
  | Some best_id => best_id
  | None =>
      n0 + Z.of_nat (length (filter (λ k, k ∉ dict_keys objs) earlier))
  end.

(** The coordinates for which the squared-distance comparisons of the
    embedding are the comparisons the code makes on [math.hypot]'s doubles:
    both components of magnitude at most 65536 = 2^16, far beyond any frame
    size. *)
Definition in_pixel_range (c : point) : bool :=
  (-65536 <=? c.1) && (c.1 <=? 65536) && (-65536 <=? c.2) && (c.2 <=? 65536).

Definition frames_in_range (frames : list (list point)) : bool :=
  forallb (forallb in_pixel_range) frames.

(** A sequence of [update] calls on one instance: the final tracker and the
    assignment list returned by each call. *)
Fixpoint updates (t : CentroidTracker) (frames : list (list point))
  : CentroidTracker * list (list Z) :=
  match frames with
  | [] => (t, [])
  | dets :: rest =>
      let '(t', a) := update t dets in
      let '(t'', r) := updates t' rest in
      (t'', a :: r)
  end.

Definition active_ids (t : CentroidTracker) : list Z := dict_keys (objects t).

(** Newly allocated ids of one call: the assigned ids that named no tracked
    identity on entry, in assignment order; and those of a run of calls. *)
Definition new_ids (t : CentroidTracker) (assignments : list Z) : list Z :=
  filter (λ k, k ∉ active_ids t) assignments.

Fixpoint alloc_trace (t : CentroidTracker) (frames : list (list point))
  : list Z :=
  match frames with
  | [] => []
  | dets :: rest =>
      new_ids t (update t dets).2 ++ alloc_trace (update t dets).1 rest
  end.

(** ** The event log *)

(** Modelled from the spec: [models.py] ([CountEvent] and [db]) is not among
    the sources.  The spec gives the event the fields direction, lobby_count
    and timestamp and the sink the operations
    [append(event) → ok|fail] and [query(limit, order=timestamp desc)].
    The log is kept in append order, which is the timestamp order, so the
    timestamp itself is not stored.  [outcomes] scripts the results of the
    append attempts still to come ([true] = ok); once the script is used up
    every append succeeds. *)
Record CountEvent := mkEvent {
  direction : string;
  ev_lobby_count : Z
}.

Record EventSink := mkSink {
  events : list CountEvent;
  outcomes : list bool
}.

(** [db.session.add(event); db.session.commit()] *)
Definition sink_append (db : EventSink) (e : CountEvent) : EventSink * bool :=
  match outcomes db with
  | [] => (mkSink (events db ++ [e]) [], true)
  | true :: rest => (mkSink (events db ++ [e]) rest, true)
  | false :: rest => (mkSink (events db) rest, false)
  end.

(** [CountEvent.query.order_by(CountEvent.timestamp.desc()).first()] *)
Definition sink_latest (db : EventSink) : option CountEvent :=
  last (events db).

(** ** PeopleCounter *)

(** A detector box [xyxy] with its confidence. *)
Record Box := mkBox {
  b_x1 : Z; b_y1 : Z; b_x2 : Z; b_y2 : Z;
  b_conf : Q
}.

(** What [self.cap.read()], [self.model.predict] and [cv2.imencode] give for
    one successfully read frame. *)
Record Frame := mkFrame {
  f_results : list (list Box);
  f_encodes : bool
}.

(** The fields of [PeopleCounter] that the frame loop reads or writes. *)
Record PeopleCounter := mkCounter {
  conf_threshold : Q;
  skip_frames : Z;
  tracker : CentroidTracker;
  lobby_count : Z;
  last_seen : gmap Z Z;            (* id -> frame index *)
  frame_index : Z
}.

(** [PeopleCounter.__init__] *)
Definition PeopleCounter_init (conf_threshold : Q) (skip_frames : Z)
  : PeopleCounter :=
  mkCounter conf_threshold (Z.max 1 skip_frames)
            (CentroidTracker_init 70 12) 0 ∅ 0.

Definition set_frame_index (n : Z) (pc : PeopleCounter) : PeopleCounter :=
  mkCounter (conf_threshold pc) (skip_frames pc) (tracker pc)
            (lobby_count pc) (last_seen pc) n.

Definition set_tracker (t : CentroidTracker) (pc : PeopleCounter)
  : PeopleCounter :=
  mkCounter (conf_threshold pc) (skip_frames pc) t
            (lobby_count pc) (last_seen pc) (frame_index pc).

Definition set_lobby_count (n : Z) (pc : PeopleCounter) : PeopleCounter :=
  mkCounter (conf_threshold pc) (skip_frames pc) (tracker pc)
            n (last_seen pc) (frame_index pc).

Definition set_last_seen (m : gmap Z Z) (pc : PeopleCounter) : PeopleCounter :=
  mkCounter (conf_threshold pc) (skip_frames pc) (tracker pc)
            (lobby_count pc) m (frame_index pc).

(** [PeopleCounter._log_event]: one [add] and one [commit]; [false] stands
    for the exception of a failed commit. *)
Definition _log_event (pc : PeopleCounter) (db : EventSink)
  : EventSink * bool :=
  sink_append db (mkEvent "PRESENT" (lobby_count pc)).

(** The ids collected in [stale] (lines 122-127). *)
Definition stale_ids (pc : PeopleCounter) (active : gset Z) : list Z :=
  filter (λ obj_id,
            (obj_id ∉ active) ∧
            90 < frame_index pc - default (-1) (last_seen pc !! obj_id))
         (map_to_list (last_seen pc)).*1.

(** [PeopleCounter._cleanup_stale_ids] *)
Definition _cleanup_stale_ids (pc : PeopleCounter) (active : gset Z)
  : PeopleCounter :=
  set_last_seen
    (foldl (λ m obj_id, delete obj_id m) (last_seen pc) (stale_ids pc active))
    pc.

(** Lines 160-169: the boxes kept and their centroids. *)
Definition kept_boxes (pc : PeopleCounter) (f : Frame) : list Box :=
  List.filter (λ b, Qle_bool (conf_threshold pc) (b_conf b))
              (concat (f_results f)).

Definition centroid (b : Box) : point :=
  (Z.quot (b_x1 b + b_x2 b) 2, Z.quot (b_y1 b + b_y2 b) 2).

(** Lines 176-179: the count comparison and the event. *)
Definition aggregate (current_lobby : Z) (pc : PeopleCounter) (db : EventSink)
  : PeopleCounter * EventSink * bool :=
  if decide (current_lobby ≠ lobby_count pc) then
    let pc' := set_lobby_count current_lobby pc in
    let '(db', ok) := _log_event pc' db in
    (pc', db', ok)
  else (pc, db, true).

(** Lines 185-189: the ids drawn on the frame are stamped in [last_seen]. *)
Definition stamp_seen (frame_index : Z) (last_seen : gmap Z Z)
    (labelled : list (Box * Z)) : gmap Z Z :=
  foldl (λ m '(_, obj_id),
           if decide (obj_id = -1) then m else <[obj_id := frame_index]> m)
        last_seen labelled.

(** An encoded frame: the labels drawn and the count overlay. *)
Record Output := mkOutput {
  o_labels : list (Box * Z);
  o_lobby : Z
}.

Inductive Outcome :=
  | Skipped                (* line 144 *)
  | Raised                 (* the commit of line 118 failed *)
  | NotEncoded             (* line 204 *)
  | Yielded (o : Output).  (* line 208 *)

(** One iteration of the [while True] loop for a frame that was read. *)
Definition loop_body (pc : PeopleCounter) (db : EventSink) (f : Frame)
  : PeopleCounter * EventSink * Outcome :=
  let pc := set_frame_index (frame_index pc + 1) pc in
  if decide (frame_index pc mod skip_frames pc ≠ 0) then (pc, db, Skipped)
  else
    let boxes_list := kept_boxes pc f in
    let detections := centroid <$> boxes_list in
    let '(trk, assignments) := update (tracker pc) detections in
    let pc := set_tracker trk pc in
    let active : gset Z := list_to_set (dict_keys (objects trk)) in
    let pc := _cleanup_stale_ids pc active in
    let current_lobby := Z.of_nat (size active) in
    let '(pc, db, ok) := aggregate current_lobby pc db in
    if ok then
      let labelled := zip boxes_list assignments in
      let pc := set_last_seen
                  (stamp_seen (frame_index pc) (last_seen pc) labelled) pc in
      if f_encodes f then
        (pc, db,
         Yielded (mkOutput (List.filter (λ bi, negb (bi.2 =? -1)) labelled)
                           (lobby_count pc)))
      else (pc, db, NotEncoded)
    else (pc, db, Raised).

(** [current_lobby] of line 176 for frame [f]. *)
Definition current_lobby_of (pc : PeopleCounter) (f : Frame) : Z :=
  let trk := (update (tracker pc) (centroid <$> kept_boxes pc f)).1 in
  Z.of_nat (size (list_to_set (active_ids trk) : gset Z)).

(** The result of draining the generator over the frames the camera gives. *)
Record Run := mkRun {
  r_counter : PeopleCounter;
  r_sink : EventSink;
  r_yielded : list Output;
  r_raised : bool;
  r_unread : list Frame
}.

(** [PeopleCounter.generate_frames]: the loop ends when the camera has no
    more frames, or by the exception of a failed commit. *)
Fixpoint generate_frames (pc : PeopleCounter) (db : EventSink)
    (cap : list Frame) : Run :=
  match cap with
  | [] => mkRun pc db [] false []
  | f :: rest =>
      match loop_body pc db f with
      | (pc', db', Raised) => mkRun pc' db' [] true rest
      | (pc', db', Yielded o) =>
          let r := generate_frames pc' db' rest in
          mkRun (r_counter r) (r_sink r) (o :: r_yielded r)
                (r_raised r) (r_unread r)
      | (pc', db', _) => generate_frames pc' db' rest
      end
  end.

(** Lines 176-179 run over the active-set sizes of successive processed
    frames (an exception ends the run). *)
Fixpoint aggregate_counts (counts : list Z) (pc : PeopleCounter)
    (db : EventSink) : PeopleCounter * EventSink :=
  match counts with
  | [] => (pc, db)
  | current_lobby :: rest =>
      match aggregate current_lobby pc db with
      | (pc', db', true) => aggregate_counts rest pc' db'
      | (pc', db', false) => (pc', db')
      end
  end.

(** ** app.py *)

(** [current_stats]: the new state of [people_counter] and the value
    returned. *)
Definition current_stats (pc : PeopleCounter) (db : EventSink)
  : PeopleCounter * Z :=
  let lobby_count :=
    match sink_latest db with
    | Some last_event => ev_lobby_count last_event
    | None => 0
    end in
  (set_lobby_count lobby_count pc, lobby_count).

(** The routes [/] and [/api/stats]: the counter afterwards and the
    [lobby_count] handed to the template or to [jsonify]. *)
Definition index (pc : PeopleCounter) (db : EventSink) : PeopleCounter * Z :=
  current_stats pc db.

Definition stats (pc : PeopleCounter) (db : EventSink) : PeopleCounter * Z :=
  current_stats pc db.

(** The route [/history]: the rows handed to the template, that is
    [CountEvent.query.order_by(CountEvent.timestamp.desc()).limit(200).all()]
    over the log in append order. *)
Definition history (db : EventSink) : list CountEvent :=
  take 200 (reverse (events db)).

(** The frames of [cap] that pass the stride test of line 143 when the
    counter stands at [frame_index] on entry. *)
Fixpoint processed_frames (frame_index skip_frames : Z) (cap : list Frame)
  : list Frame :=
  match cap with
  | [] => []
  | f :: rest =>
      if decide ((frame_index + 1) mod skip_frames ≠ 0)
      then processed_frames (frame_index + 1) skip_frames rest
      else f :: processed_frames (frame_index + 1) skip_frames rest
  end.

(** * Invariants *)

(** An entry the scan may pick: unclaimed and strictly under the maximum
    distance. *)
Definition candidate (used : gset Z) (c : point) (maxd : Z)
    (e : Z * point) : Prop :=
  (e.1 ∉ used) ∧ lt_max (dist2 c e.2) maxd = true.

(** The accumulators of the scan after the entries [pre]. *)
Definition scan_inv (pre : list (Z * point)) (used : gset Z) (c : point)
    (maxd : Z) (best_id best_dist : option Z) : Prop :=
  match best_id, best_dist with
  | None, None => ∀ e, e ∈ pre → ¬ candidate used c maxd e
  | Some id, Some d =>
      ∃ (i : nat) p,
        pre !! i = Some (id, p) ∧ d = dist2 c p ∧
        candidate used c maxd (id, p) ∧
        ∀ (j : nat) e, pre !! j = Some e → candidate used c maxd e →
                       d ≤ dist2 c e.2 ∧ ((j < i)%nat → d < dist2 c e.2)
  | _, _ => False
  end.

(** What holds of the loop variables after [i] detections, for a tracker
    whose ids are all below [n0] and whose map was [D0] on entry. *)
Record match_inv (objs : list (Z * point)) (n0 : Z) (D0 : gmap Z Z)
    (len : nat) (i : nat) (s : MatchState) : Prop := {
  mi_next : n0 ≤ m_next_id s;
  mi_keys : ∀ k, k ∈ dict_keys (m_new_objects s) ↔ k ∈ m_used_ids s;
  mi_nodup : NoDup (dict_keys (m_new_objects s));
  mi_used : ∀ k, k ∈ m_used_ids s →
                 k ∈ dict_keys objs ∨ n0 ≤ k < m_next_id s;
  mi_dis : ∀ k, m_disappeared s !! k =
                if decide (k ∈ m_used_ids s) then Some 0 else D0 !! k;
  mi_len : length (m_assignments s) = len;
  mi_asg : ∀ k, k ∈ take i (m_assignments s) ↔ k ∈ m_used_ids s;
  mi_asg_nodup : NoDup (take i (m_assignments s));
  mi_new : filter (λ k, k ∉ dict_keys objs) (take i (m_assignments s))
           = seqZ n0 (m_next_id s - n0)
}.

(** Ids in use lie below [next_id] and no key occurs twice. *)
Record ids_wf (t : CentroidTracker) : Prop := {
  wf_next : 0 ≤ next_id t;
  wf_nodup : NoDup (active_ids t);
  wf_active : ∀ k, k ∈ active_ids t → 0 ≤ k < next_id t;
  wf_dom : ∀ k, is_Some (disappeared t !! k) ↔ 0 ≤ k < next_id t
}.

(** What one call of [update] does, in terms of the returned assignments. *)
Record update_post (t : CentroidTracker) (dets : list point)
    (t' : CentroidTracker) (asg : list Z) : Prop := {
  up_maxd : max_distance t' = max_distance t;
  up_maxdis : max_disappeared t' = max_disappeared t;
  up_len : length asg = length dets;
  up_next : next_id t ≤ next_id t';
  up_new : filter (λ k, k ∉ active_ids t) asg
           = seqZ (next_id t) (next_id t' - next_id t);
  up_active : ∀ k, k ∈ active_ids t' ↔
      k ∈ asg ∨ (k ∈ active_ids t ∧
                 default 0 (disappeared t !! k) + 1 ≤ max_disappeared t);
  up_dis : ∀ k, disappeared t' !! k =
      if decide (k ∈ asg) then Some 0
      else if decide (k ∈ active_ids t)
           then Some (default 0 (disappeared t !! k) + 1)
           else disappeared t !! k;
  up_nodup : NoDup (active_ids t');
  up_asg_nodup : NoDup asg
}.

(** Counters of active ids are within the budget, the others sit one above. *)
Definition counts_wf (t : CentroidTracker) : Prop :=
  ∀ k d, disappeared t !! k = Some d →
         if decide (k ∈ active_ids t) then 0 ≤ d ≤ max_disappeared t
         else d = max_disappeared t + 1.

(** No two neighbours of the list are equal. *)
Fixpoint adjacent_distinct (l : list Z) : Prop :=
  match l with
  | x :: ((y :: _) as rest) => x ≠ y ∧ adjacent_distinct rest
  | _ => True
  end.

(** What every [PeopleCounter] reached by the frame loop satisfies: a stride
    of at least one, a well-formed tracker, a count equal to the number of
    tracked identities, and a [last_seen] that only names allocated ids, each
    stamped with a frame index already read. *)
Record pipeline_inv (pc : PeopleCounter) : Prop := {
  pi_stride : 1 ≤ skip_frames pc;
  pi_index : 0 ≤ frame_index pc;
  pi_tracker : ids_wf (tracker pc);
  pi_lobby : lobby_count pc
             = Z.of_nat (length (active_ids (tracker pc)));
  pi_seen : ∀ k v, last_seen pc !! k = Some v →
                   0 ≤ k < next_id (tracker pc) ∧ 1 ≤ v ≤ frame_index pc
}.

(** * Properties *)

(** ** Dict lemmas *)

Section dict_facts.
Context {V : Type}.
Implicit Types (d : list (Z * V)) (k : Z) (v : V).

Lemma dict_keys_set_in d k v :
  k ∈ dict_keys d → dict_keys (dict_set d k v) = dict_keys d.
Proof.
  unfold dict_keys. induction d as [|[k' v'] r IH]; simpl.
  - intros H. by apply elem_of_nil in H.
  - intros H. destruct (decide (k' = k)) as [->|Hne]; simpl; [done|].
    apply elem_of_cons in H as [H|H]; [congruence|]. f_equal. by apply IH.
Qed.

Lemma dict_keys_set_notin d k v :
  k ∉ dict_keys d → dict_keys (dict_set d k v) = dict_keys d ++ [k].
Proof.
  unfold dict_keys. induction d as [|[k' v'] r IH]; simpl; [done|].
  intros H. apply not_elem_of_cons in H as [Hne H].
  destruct (decide (k' = k)); [congruence|]. simpl. f_equal. by apply IH.
Qed.

Lemma elem_of_dict_keys_set d k v x :
  x ∈ dict_keys (dict_set d k v) ↔ x = k ∨ x ∈ dict_keys d.
Proof.
  destruct (decide (k ∈ dict_keys d)) as [Hin|Hout].
  - rewrite dict_keys_set_in by done. naive_solver.
  - rewrite dict_keys_set_notin by done.
    rewrite elem_of_app, list_elem_of_singleton. naive_solver.
Qed.

Lemma NoDup_dict_keys_set d k v :
  NoDup (dict_keys d) → NoDup (dict_keys (dict_set d k v)).
Proof.
  intros Hnd. destruct (decide (k ∈ dict_keys d)) as [Hin|Hout].
  - by rewrite dict_keys_set_in.
  - rewrite dict_keys_set_notin by done. apply NoDup_app.
    split; [done|]. split; [|apply NoDup_singleton].
    intros x Hx Hx'. apply list_elem_of_singleton in Hx'. by subst.
Qed.

Lemma dict_get_is_Some d k : k ∈ dict_keys d → is_Some (dict_get d k).
Proof.
  unfold dict_keys. induction d as [|[k' v'] r IH]; simpl.
  - intros H. by apply elem_of_nil in H.
  - intros H. destruct (decide (k' = k)); [by eexists|].
    apply elem_of_cons in H as [H|H]; [congruence|]. by apply IH.
Qed.

Lemma dict_has_true d k : dict_has d k = true ↔ k ∈ dict_keys d.
Proof. unfold dict_has. apply bool_decide_eq_true. Qed.

Lemma dict_has_false d k : dict_has d k = false ↔ k ∉ dict_keys d.
Proof. unfold dict_has. apply bool_decide_eq_false. Qed.
End dict_facts.

(** ** The inner scan *)

Lemma scan_objects_elem items used c maxd best_id best_dist id :
  scan_objects items used c maxd best_id best_dist = Some id →
  best_id = Some id ∨ (id ∈ dict_keys items ∧ id ∉ used).
Proof.
  unfold dict_keys.
  revert best_id best_dist.
  induction items as [|[k [ox oy]] rest IH]; intros best_id best_dist; simpl.
  - auto.
  - destruct (decide (k ∈ used)) as [Hu|Hu].
    + intros H. apply IH in H as [H|[H1 H2]]; [by left|right].
      split; [by apply list_elem_of_further|done].
    + destruct (lt_best _ _ && lt_max _ _).
      * intros H. apply IH in H as [H|[H1 H2]]; right.
        -- injection H as <-. split; [apply list_elem_of_here|done].
        -- split; [by apply list_elem_of_further|done].
      * intros H. apply IH in H as [H|[H1 H2]]; [by left|right].
        split; [by apply list_elem_of_further|done].
Qed.

Lemma scan_objects_fresh items used c maxd id :
  scan_objects items used c maxd None None = Some id →
  id ∈ dict_keys items ∧ id ∉ used.
Proof. intros H. by apply scan_objects_elem in H as [?|?]. Qed.

(** ** The greedy loop *)

Lemma filter_all (P : Z → Prop) `{∀ x, Decision (P x)} (l : list Z) :
  (∀ x, x ∈ l → P x) → filter P l = l.
Proof.
  induction l as [|x l IH]; intros Hall; [done|].
  rewrite filter_cons_True by apply Hall, list_elem_of_here.
  f_equal. apply IH. intros y Hy. by apply Hall, list_elem_of_further.
Qed.

Lemma take_S_insert (l : list Z) (i : nat) (x : Z) :
  (i < length l)%nat → take (S i) (<[i := x]> l) = take i l ++ [x].
Proof.
  intros Hi.
  rewrite (take_S_r _ _ x) by (by apply list_lookup_insert_eq).
  by rewrite take_insert_ge by lia.
Qed.

Lemma match_step_inv objs maxd n0 D0 len i c s :
  (∀ k, k ∈ dict_keys objs → k < n0) →
  (i < len)%nat →
  match_inv objs n0 D0 len i s →
  match_inv objs n0 D0 len (S i) (match_step objs maxd i c s).
Proof.
  intros Hold Hi [Hn Hk Hnd Hu Hd Hl Ha Han Hf].
  unfold match_step.
  destruct (scan_objects _ _ _ _ _ _) as [best|] eqn:Hscan.
  - apply scan_objects_fresh in Hscan as [Hin Hnu].
    split; simpl.
    + done.
    + intros k. rewrite elem_of_dict_keys_set, Hk. set_solver.
    + by apply NoDup_dict_keys_set.
    + intros k [->%elem_of_singleton|Hku]%elem_of_union; auto.
    + intros k. rewrite lookup_insert. rewrite Hd.
      repeat case_decide; set_solver.
    + by rewrite length_insert.
    + intros k. rewrite take_S_insert by lia.
      rewrite elem_of_app, list_elem_of_singleton, Ha. set_solver.
    + rewrite take_S_insert by lia. apply NoDup_app.
      split_and!; [done| |apply NoDup_singleton].
      intros k Hk1 ->%list_elem_of_singleton. by apply Hnu, Ha.
    + rewrite take_S_insert by lia. rewrite filter_app, Hf.
      rewrite filter_cons_False by (intros H; by apply H).
      by rewrite filter_nil, app_nil_r.
  - assert (m_next_id s ∉ dict_keys objs) as Hfresh
        by (intros H%Hold; lia).
    split; simpl.
    + lia.
    + intros k. rewrite elem_of_dict_keys_set, Hk. set_solver.
    + by apply NoDup_dict_keys_set.
    + intros k [->%elem_of_singleton|Hku]%elem_of_union; [right; lia|].
      destruct (Hu k Hku) as [?|?]; [by left|right; lia].
    + intros k. rewrite lookup_insert. rewrite Hd.
      repeat case_decide; set_solver.
    + by rewrite length_insert.
    + intros k. rewrite take_S_insert by lia.
      rewrite elem_of_app, list_elem_of_singleton, Ha. set_solver.
    + rewrite take_S_insert by lia. apply NoDup_app.
      split_and!; [done| |apply NoDup_singleton].
      intros k Hk1 ->%list_elem_of_singleton.
      apply Ha, Hu in Hk1 as [?|?]; [done|lia].
    + rewrite take_S_insert by lia. rewrite filter_app, Hf.
      rewrite filter_cons_True by done. rewrite filter_nil.
      replace (m_next_id s + 1 - n0) with ((m_next_id s - n0) + 1) by lia.
      rewrite seqZ_app by lia. f_equal.
      rewrite seqZ_cons by lia. rewrite seqZ_nil by lia. f_equal. lia.
Qed.

Lemma match_loop_inv objs maxd n0 D0 len dets i s :
  (∀ k, k ∈ dict_keys objs → k < n0) →
  (i + length dets = len)%nat →
  match_inv objs n0 D0 len i s →
  match_inv objs n0 D0 len len (match_loop objs maxd i dets s).
Proof.
  intros Hold. revert i s.
  induction dets as [|c rest IH]; intros i s Hlen Hinv; simpl in *.
  - rewrite Nat.add_0_r in Hlen. by subst.
  - apply IH; [lia|]. apply match_step_inv; [done|lia|done].
Qed.

Lemma match_inv_init objs n0 D0 len :
  match_inv objs n0 D0 len 0
    (mkMatch [] ∅ D0 n0 (replicate len (-1))).
Proof.
  split; simpl.
  - lia.
  - intros k. unfold dict_keys. simpl. set_solver.
  - apply NoDup_nil_2.
  - set_solver.
  - intros k. by rewrite decide_False by set_solver.
  - by rewrite length_replicate.
  - set_solver.
  - apply NoDup_nil_2.
  - rewrite Z.sub_diag. by rewrite seqZ_nil.
Qed.

(** ** The ageing loop *)

Lemma age_loop_spec objs maxdis ks :
  NoDup ks →
  (∀ k, k ∈ ks → k ∈ dict_keys objs) →
  ∀ N D N' D',
  age_loop objs maxdis ks N D = (N', D') →
  (∀ k, k ∈ dict_keys N' ↔
        k ∈ dict_keys N ∨ (k ∈ ks ∧ default 0 (D !! k) + 1 ≤ maxdis)) ∧
  (∀ k, D' !! k = if decide (k ∈ ks ∧ k ∉ dict_keys N)
                  then Some (default 0 (D !! k) + 1) else D !! k) ∧
  (NoDup (dict_keys N) → NoDup (dict_keys N')).
Proof.
  induction ks as [|k0 rest IH]; intros Hnd Hsub N D N' D'; simpl.
  - intros [= <- <-]. split_and!; [set_solver|done|done].
  - apply NoDup_cons in Hnd as [Hk0 Hnd].
    assert (∀ k, k ∈ rest → k ∈ dict_keys objs) as Hsub'
        by (intros k Hk; apply Hsub; by apply list_elem_of_further).
    destruct (dict_has N k0) eqn:Hhas.
    + apply dict_has_true in Hhas.
      intros Hrun. destruct (IH Hnd Hsub' _ _ _ _ Hrun) as (HA & HB & HC).
      split_and!; [| |done].
      * intros k. rewrite HA, elem_of_cons.
        split; [naive_solver|]. intros [?|[[->|?] ?]]; auto.
      * intros k. rewrite HB.
        destruct (decide (k = k0)) as [->|Hne].
        -- rewrite !decide_False; [done| |]; intros [? ?]; done.
        -- apply decide_ext. rewrite elem_of_cons. naive_solver.
    + apply dict_has_false in Hhas.
      set (d0 := default 0 (D !! k0) + 1).
      set (N1 := if d0 <=? maxdis
                 then match dict_get objs k0 with
                      | Some p => dict_set N k0 p
                      | None => N
                      end
                 else N).
      intros Hrun. destruct (IH Hnd Hsub' _ _ _ _ Hrun) as (HA & HB & HC).
      assert (∀ k, k ∈ dict_keys N1 ↔
                   k ∈ dict_keys N ∨ (k = k0 ∧ d0 ≤ maxdis)) as HN1.
      { intros k. subst N1. destruct (Z.leb_spec d0 maxdis) as [Hle|Hgt].
        - destruct (dict_get_is_Some objs k0) as [p ->].
          { apply Hsub, list_elem_of_here. }
          rewrite elem_of_dict_keys_set. naive_solver.
        - split; [auto|]. intros [?|[_ ?]]; [done|lia]. }
      assert (NoDup (dict_keys N) → NoDup (dict_keys N1)) as HndN1.
      { intros HndN. subst N1. destruct (d0 <=? maxdis); [|done].
        destruct (dict_get objs k0); [|done]. by apply NoDup_dict_keys_set. }
      split_and!; [| |auto].
      * intros k. rewrite HA, HN1, elem_of_cons.
        destruct (decide (k = k0)) as [->|Hne].
        -- split; [|naive_solver]. intros [[?|[_ ?]]|[? _]]; [auto| |done].
           right. split; [by left|done].
        -- rewrite lookup_insert_ne by done. naive_solver.
      * intros k. rewrite HB.
        destruct (decide (k = k0)) as [->|Hne].
        -- rewrite decide_False by (intros [? _]; done).
           rewrite lookup_insert_eq.
           rewrite decide_True; [done|]. split; [apply list_elem_of_here|done].
        -- rewrite lookup_insert_ne by done.
           apply decide_ext. rewrite HN1, elem_of_cons. naive_solver.
Qed.

(** ** The registration loop *)

Lemma register_loop_spec dets :
  ∀ i t asg t' asg',
  (∀ k, k ∈ dict_keys (objects t) → k < next_id t) →
  (i + length dets ≤ length asg)%nat →
  register_loop i dets t asg = (t', asg') →
  next_id t' = next_id t + Z.of_nat (length dets) ∧
  dict_keys (objects t') =
    dict_keys (objects t) ++ seqZ (next_id t) (Z.of_nat (length dets)) ∧
  (∀ k, disappeared t' !! k =
        if decide (next_id t ≤ k < next_id t') then Some 0
        else disappeared t !! k) ∧
  length asg' = length asg ∧
  take (i + length dets) asg' =
    take i asg ++ seqZ (next_id t) (Z.of_nat (length dets)) ∧
  max_distance t' = max_distance t ∧
  max_disappeared t' = max_disappeared t.
Proof.
  induction dets as [|c rest IH]; intros i t asg t' asg' Hold Hlen.
  - simpl. intros [= <- <-]. rewrite seqZ_nil by done.
    rewrite Nat.add_0_r, !app_nil_r, Z.add_0_r.
    split_and!; try done. intros k. by rewrite decide_False by lia.
  - simpl in Hlen. cbn [register_loop]. intros Hrun.
    apply IH in Hrun as (Hn & Hk & Hd & Hl & Ht & Hm1 & Hm2); simpl in *.
    + assert (next_id t ∉ dict_keys (objects t)) as Hfresh
          by (intros H%Hold; lia).
      rewrite dict_keys_set_notin in Hk by done.
      rewrite length_insert in Hl.
      rewrite take_S_insert in Ht by lia.
      rewrite Nat2Z.inj_succ.
      rewrite (seqZ_cons (next_id t)) by lia.
      rewrite Z.pred_succ.
      replace (Z.succ (next_id t)) with (next_id t + 1) by lia.
      split_and!; try done.
      * lia.
      * by rewrite Hk, <- app_assoc.
      * intros k. rewrite Hd, lookup_insert.
        repeat case_decide; try done; lia.
      * replace (i + S (length rest))%nat with (S (i + length rest)) by lia.
        by rewrite Ht, <- app_assoc.
    + intros k [->|Hk]%elem_of_dict_keys_set; [lia|].
      apply Hold in Hk. lia.
    + rewrite length_insert. lia.
Qed.

(** ** One call of [update] *)

Lemma update_spec t dets t' asg :
  ids_wf t → update t dets = (t', asg) → update_post t dets t' asg.
Proof.
  intros [Hn Hnd Hact Hdom]. unfold update, active_ids in *.
  destruct (Nat.eqb_spec (length (objects t)) 0) as [Hempty|Hne].
  - (* nothing tracked: every detection is registered *)
    apply nil_length_inv in Hempty.
    intros Hrun.
    apply register_loop_spec in Hrun
      as (Hn' & Hk & Hd & Hl & Ht & Hm1 & Hm2).
    + rewrite length_replicate in Hl.
      rewrite Nat.add_0_l, take_0, app_nil_l in Ht.
      rewrite take_ge in Ht by lia. subst asg.
      rewrite Hempty in *. simpl in Hk.
      split; unfold active_ids; rewrite ?Hempty; try done.
      * lia.
      * replace (next_id t' - next_id t) with (Z.of_nat (length dets)) by lia.
        apply filter_all. intros k _.
        unfold dict_keys. simpl. apply not_elem_of_nil.
      * intros k. rewrite Hk. unfold dict_keys. simpl. set_solver.
      * intros k. rewrite Hd. unfold dict_keys. simpl.
        apply decide_ext. rewrite elem_of_seqZ. lia.
      * rewrite Hk. apply NoDup_seqZ.
      * apply NoDup_seqZ.
    + intros k Hk. apply Hact in Hk. lia.
    + rewrite length_replicate. lia.
  - (* greedy matching, then ageing *)
    pose proof (match_loop_inv (objects t) (max_distance t) (next_id t)
                  (disappeared t) (length dets) dets 0
                  (mkMatch [] ∅ (disappeared t) (next_id t)
                           (replicate (length dets) (-1)))) as Hinv.
    destruct Hinv as [Hmn Hmk Hmnd Hmu Hmd Hml Hma Hman Hmf].
    { intros k Hk. apply Hact in Hk. lia. }
    { done. }
    { apply match_inv_init. }
    set (s := match_loop _ _ _ _ _) in *.
    rewrite take_ge in Hma, Hman, Hmf by lia.
    destruct (age_loop _ _ _ _ _) as [N' D'] eqn:Hage.
    apply age_loop_spec in Hage as (HA & HB & HC); [|done|done].
    intros [= <- <-]. unfold active_ids. split; simpl; try done.
    + intros k. rewrite HA, Hmk, <- Hma.
      split; intros [?|[Hk Hle]]; auto.
      * destruct (decide (k ∈ m_assignments s)) as [?|Hout]; [auto|right].
        split; [done|]. rewrite Hmd in Hle.
        rewrite decide_False in Hle; [done|]. by rewrite <- Hma.
      * destruct (decide (k ∈ m_assignments s)) as [?|Hout]; [auto|right].
        split; [done|]. rewrite Hmd.
        rewrite decide_False; [done|]. by rewrite <- Hma.
    + intros k. rewrite HB, Hmd.
      destruct (decide (k ∈ m_assignments s)) as [Hin|Hout].
      * rewrite decide_False by (intros [_ Hc]; apply Hc, Hmk, Hma, Hin).
        rewrite decide_True; [done|]. by apply Hma.
      * assert (k ∉ m_used_ids s) as Hnu by (by rewrite <- Hma).
        rewrite (decide_False (P := k ∈ m_used_ids s)) by done.
        apply decide_ext. unfold active_ids. rewrite Hmk. tauto.
    + by apply HC.
Qed.

Lemma update_ids_wf t dets t' asg :
  ids_wf t → update t dets = (t', asg) → ids_wf t'.
Proof.
  intros Hwf Hrun. pose proof (update_spec _ _ _ _ Hwf Hrun) as Hp.
  destruct Hwf as [Hn Hnd Hact Hdom].
  destruct Hp as [_ _ _ Hnext Hnew Hactive Hdis Hnodup _].
  assert (∀ k, k ∈ asg → 0 ≤ k < next_id t') as Hasg.
  { intros k Hk. destruct (decide (k ∈ active_ids t)) as [Hin|Hout].
    - apply Hact in Hin. lia.
    - assert (k ∈ filter (λ k, k ∉ active_ids t) asg) as Hf
          by (by apply list_elem_of_filter).
      rewrite Hnew in Hf. apply elem_of_seqZ in Hf. lia. }
  split.
  - lia.
  - done.
  - intros k [Hk|[Hk _]]%Hactive; [by apply Hasg|]. apply Hact in Hk. lia.
  - intros k. rewrite Hdis.
    destruct (decide (k ∈ asg)) as [Hk|Hk].
    { split; [intros _; by apply Hasg|by eexists]. }
    destruct (decide (k ∈ active_ids t)) as [Hk'|Hk'].
    { split; [intros _|by eexists]. apply Hact in Hk'. lia. }
    rewrite Hdom. split; [lia|]. intros Hr.
    destruct (decide (k < next_id t)) as [?|Hge]; [lia|].
    exfalso. apply Hk.
    assert (k ∈ filter (λ k, k ∉ active_ids t) asg) as Hf
        by (rewrite Hnew; apply elem_of_seqZ; lia).
    by apply list_elem_of_filter in Hf as [_ ?].
Qed.

Lemma ids_wf_init maxd maxdis : ids_wf (CentroidTracker_init maxd maxdis).
Proof.
  split; simpl.
  - done.
  - apply NoDup_nil_2.
  - intros k Hk. by apply elem_of_nil in Hk.
  - intros k. rewrite lookup_empty. split; [by intros [? ?]|lia].
Qed.

(** An assigned id is either a previously active one or a fresh one. *)
Lemma update_assigned t dets t' asg k :
  ids_wf t → update t dets = (t', asg) → k ∈ asg →
  k ∈ active_ids t ∨ next_id t ≤ k < next_id t'.
Proof.
  intros Hwf Hrun Hk. pose proof (update_spec _ _ _ _ Hwf Hrun) as Hp.
  destruct (decide (k ∈ active_ids t)) as [Hin|Hout]; [by left|right].
  assert (k ∈ filter (λ k, k ∉ active_ids t) asg) as Hf
      by (by apply list_elem_of_filter).
  rewrite (up_new _ _ _ _ Hp) in Hf. apply elem_of_seqZ in Hf. lia.
Qed.

Lemma update_counts_wf t dets t' asg :
  0 ≤ max_disappeared t → ids_wf t → counts_wf t →
  update t dets = (t', asg) → counts_wf t'.
Proof.
  intros Hmax Hwf Hc Hrun.
  destruct (update_spec _ _ _ _ Hwf Hrun)
    as [_ Hmd _ _ _ Hactive Hdis _ _].
  intros k d. rewrite Hdis, Hmd.
  destruct (decide (k ∈ asg)) as [Hk|Hk].
  { intros [= <-]. rewrite decide_True by (apply Hactive; by left). lia. }
  destruct (decide (k ∈ active_ids t)) as [Hk'|Hk'].
  - destruct (proj2 (wf_dom _ Hwf k) (wf_active _ Hwf k Hk')) as [d0 Hd0].
    specialize (Hc k d0 Hd0). rewrite decide_True in Hc by done.
    rewrite Hd0. simpl. intros [= <-].
    destruct (decide (d0 + 1 ≤ max_disappeared t)) as [Hle|Hgt].
    + rewrite decide_True; [lia|]. apply Hactive. right.
      split; [done|]. by rewrite Hd0.
    + rewrite decide_False; [lia|]. intros [?|[_ Hle]]%Hactive; [done|].
      rewrite Hd0 in Hle. simpl in Hle. lia.
  - intros Hd. specialize (Hc k d Hd). rewrite decide_False in Hc by done.
    rewrite decide_False; [done|]. by intros [?|[? _]]%Hactive.
Qed.

Lemma counts_wf_init maxd maxdis : counts_wf (CentroidTracker_init maxd maxdis).
Proof. intros k d. simpl. by rewrite lookup_empty. Qed.

(** ** Sequences of calls *)

Lemma updates_cons t dets rest :
  updates t (dets :: rest) =
    ((updates (update t dets).1 rest).1,
     (update t dets).2 :: (updates (update t dets).1 rest).2).
Proof.
  simpl. destruct (update t dets) as [t' a]. simpl.
  by destruct (updates t' rest).
Qed.

Lemma updates_app t fs1 fs2 :
  updates t (fs1 ++ fs2) =
    ((updates (updates t fs1).1 fs2).1,
     (updates t fs1).2 ++ (updates (updates t fs1).1 fs2).2).
Proof.
  revert t. induction fs1 as [|dets rest IH]; intros t.
  - simpl. by destruct (updates t fs2).
  - rewrite <- app_comm_cons, !updates_cons. simpl. by rewrite IH.
Qed.

Lemma updates_max_disappeared t fs :
  ids_wf t → max_disappeared (updates t fs).1 = max_disappeared t.
Proof.
  revert t. induction fs as [|dets rest IH]; intros t Hwf; [done|].
  rewrite updates_cons. simpl.
  destruct (update t dets) as [t' a] eqn:Hu. simpl.
  rewrite IH by eauto using update_ids_wf.
  by destruct (update_spec _ _ _ _ Hwf Hu).
Qed.

Lemma updates_max_distance t fs :
  ids_wf t → max_distance (updates t fs).1 = max_distance t.
Proof.
  revert t. induction fs as [|dets rest IH]; intros t Hwf; [done|].
  rewrite updates_cons. simpl.
  destruct (update t dets) as [t' a] eqn:Hu. simpl.
  rewrite IH by eauto using update_ids_wf.
  by destruct (update_spec _ _ _ _ Hwf Hu).
Qed.

Lemma updates_ids_wf t fs : ids_wf t → ids_wf (updates t fs).1.
Proof.
  revert t. induction fs as [|dets rest IH]; intros t Hwf; [done|].
  rewrite updates_cons. simpl.
  destruct (update t dets) as [t' a] eqn:Hu. simpl.
  eauto using update_ids_wf.
Qed.

Lemma updates_counts_wf t fs :
  0 ≤ max_disappeared t → ids_wf t → counts_wf t →
  counts_wf (updates t fs).1.
Proof.
  revert t. induction fs as [|dets rest IH]; intros t Hmax Hwf Hc; [done|].
  rewrite updates_cons. simpl.
  destruct (update t dets) as [t' a] eqn:Hu. simpl.
  apply IH; eauto using update_ids_wf, update_counts_wf.
  by destruct (update_spec _ _ _ _ Hwf Hu) as [_ -> _ _ _ _ _ _ _].
Qed.

Lemma updates_next_id_mono t fs :
  ids_wf t → next_id t ≤ next_id (updates t fs).1.
Proof.
  revert t. induction fs as [|dets rest IH]; intros t Hwf; [done|].
  rewrite updates_cons. simpl.
  destruct (update t dets) as [t' a] eqn:Hu. simpl.
  etrans; [|apply IH; eauto using update_ids_wf].
  by destruct (update_spec _ _ _ _ Hwf Hu).
Qed.

(** An id that has left the active set never comes back. *)
Lemma retired_forever t k fs :
  ids_wf t → k < next_id t → k ∉ active_ids t →
  Forall (λ a, k ∉ a) (updates t fs).2 ∧
  (k ∉ active_ids (updates t fs).1) ∧
  disappeared (updates t fs).1 !! k = disappeared t !! k.
Proof.
  revert t. induction fs as [|dets rest IH]; intros t Hwf Hlt Hout.
  - simpl. split_and!; [apply Forall_nil_2|done..].
  - rewrite updates_cons. simpl.
    destruct (update t dets) as [t' a] eqn:Hu. simpl.
    pose proof (update_spec _ _ _ _ Hwf Hu) as Hp.
    assert (k ∉ a) as Hka.
    { intros Hk. eapply update_assigned in Hk as [?|?]; eauto. lia. }
    assert (k ∉ active_ids t') as Hout'.
    { intros [?|[? _]]%(up_active _ _ _ _ Hp); done. }
    destruct (IH t') as (H1 & H2 & H3);
      [by eapply update_ids_wf|pose proof (up_next _ _ _ _ Hp); lia|done|].
    split_and!; [by apply Forall_cons|done|].
    rewrite H3, (up_dis _ _ _ _ Hp). by rewrite !decide_False.
Qed.

(** An active id left unmatched by every call of a run ages by one per call,
    until its counter passes the budget. *)
Lemma absent_run t k d fs :
  ids_wf t → k ∈ active_ids t → disappeared t !! k = Some d →
  d ≤ max_disappeared t →
  Forall (λ a, k ∉ a) (updates t fs).2 →
  disappeared (updates t fs).1 !! k
    = Some (Z.min (d + Z.of_nat (length fs)) (max_disappeared t + 1)) ∧
  (k ∈ active_ids (updates t fs).1 ↔
   d + Z.of_nat (length fs) ≤ max_disappeared t).
Proof.
  revert t d. induction fs as [|dets rest IH]; intros t d Hwf Hk Hd Hle.
  - simpl. intros _. rewrite Z.add_0_r. split; [|done].
    rewrite Hd. f_equal. lia.
  - rewrite updates_cons. simpl.
    destruct (update t dets) as [t' a] eqn:Hu. simpl.
    intros [Hka Hrest]%Forall_cons.
    pose proof (update_spec _ _ _ _ Hwf Hu) as Hp.
    pose proof (update_ids_wf _ _ _ _ Hwf Hu) as Hwf'.
    assert (disappeared t' !! k = Some (d + 1)) as Hd'.
    { rewrite (up_dis _ _ _ _ Hp), decide_False, decide_True by done.
      by rewrite Hd. }
    destruct (decide (d + 1 ≤ max_disappeared t)) as [Hle'|Hgt].
    + assert (k ∈ active_ids t') as Hk'.
      { apply (up_active _ _ _ _ Hp). right. split; [done|]. by rewrite Hd. }
      destruct (IH t' (d + 1)) as [H1 H2]; try done.
      { rewrite (up_maxdis _ _ _ _ Hp). lia. }
      rewrite (up_maxdis _ _ _ _ Hp) in H1, H2.
      split.
      * rewrite H1. f_equal. lia.
      * rewrite H2. lia.
    + assert (k ∉ active_ids t') as Hk'.
      { intros [?|[_ Hc]]%(up_active _ _ _ _ Hp); [done|].
        rewrite Hd in Hc. simpl in Hc. lia. }
      destruct (retired_forever t' k rest) as (_ & H2 & H3); try done.
      { pose proof (wf_active _ Hwf k Hk). pose proof (up_next _ _ _ _ Hp).
        lia. }
      split.
      * rewrite H3, Hd'. f_equal. lia.
      * split; [done|lia].
Qed.

(** ** Stale-memory cleanup *)

Lemma lookup_foldl_delete (m : gmap Z Z) (l : list Z) (k : Z) :
  foldl (λ m obj_id, delete obj_id m) m l !! k
  = if decide (k ∈ l) then None else m !! k.
Proof.
  revert m. induction l as [|x l IH]; intros m; simpl.
  - done.
  - rewrite IH. destruct (decide (k = x)) as [->|Hne].
    + rewrite lookup_delete_eq, (decide_True (P := x ∈ x :: l)); [|by left].
      by case_decide.
    + rewrite lookup_delete_ne by done.
      apply decide_ext. rewrite elem_of_cons. naive_solver.
Qed.

Lemma elem_of_stale_ids pc active k :
  k ∈ stale_ids pc active ↔
  ∃ v, last_seen pc !! k = Some v ∧ (k ∉ active) ∧ 90 < frame_index pc - v.
Proof.
  unfold stale_ids. rewrite list_elem_of_filter, list_elem_of_fmap. split.
  - intros [[Hout Hold] [[k' v] [-> Hin]]]. simpl in *.
    apply elem_of_map_to_list in Hin. rewrite Hin in Hold. by exists v.
  - intros (v & Hv & Hout & Hold). rewrite Hv. split; [done|].
    exists (k, v). split; [done|]. by apply elem_of_map_to_list.
Qed.

(** C7. [_cleanup_stale_ids] removes the [last_seen] entry of an id exactly
    when the id is outside the active set and the current frame index
    exceeds the entry's frame by more than 90; every other entry and every
    other field is untouched.  An inactive entry stamped at frame 10 is
    still there at frames 99 and 100 and is gone at frame 101. *)
Theorem cleanup_stale_ids_exact :
  (∀ pc active k,
     last_seen (_cleanup_stale_ids pc active) !! k =
       match last_seen pc !! k with
       | Some v => if decide ((k ∉ active) ∧ 90 < frame_index pc - v)
                   then None else Some v
       | None => None
       end) ∧
  (∀ pc active,
     let pc' := _cleanup_stale_ids pc active in
     frame_index pc' = frame_index pc ∧ tracker pc' = tracker pc ∧
     lobby_count pc' = lobby_count pc) ∧
  (∀ pc id,
     last_seen pc = {[id := 10]} →
     (frame_index pc = 99 ∨ frame_index pc = 100 →
      last_seen (_cleanup_stale_ids pc ∅) !! id = Some 10) ∧
     (frame_index pc = 101 →
      last_seen (_cleanup_stale_ids pc ∅) !! id = None)).
Proof.
  assert (∀ pc active k,
     last_seen (_cleanup_stale_ids pc active) !! k =
       match last_seen pc !! k with
       | Some v => if decide ((k ∉ active) ∧ 90 < frame_index pc - v)
                   then None else Some v
       | None => None
       end) as Hmain.
  { intros pc active k. unfold _cleanup_stale_ids. simpl.
    rewrite lookup_foldl_delete.
    destruct (decide (k ∈ stale_ids pc active)) as [Hin|Hout].
    - apply elem_of_stale_ids in Hin as (v & -> & Hout & Hold).
      by rewrite decide_True.
    - destruct (last_seen pc !! k) as [v|] eqn:Hv; [|done].
      rewrite decide_False; [done|]. intros [Hk Hold]. apply Hout.
      apply elem_of_stale_ids. by exists v. }
  split_and!; [done|done|].
  intros pc id Hls. split.
  - intros Hidx. rewrite Hmain, Hls, lookup_singleton_eq.
    rewrite decide_False; [done|]. intros [_ ?]. lia.
  - intros Hidx. rewrite Hmain, Hls, lookup_singleton_eq.
    rewrite decide_True; [done|]. split; [set_solver|lia].
Qed.

Lemma cleanup_stale_ids_exact_witness :
  let pc := mkCounter (1 # 2) 1 (CentroidTracker_init 70 12) 0
                      {[7 := 10]} 101 in
  last_seen pc = {[7 := 10]} ∧ frame_index pc = 101 ∧
  last_seen (_cleanup_stale_ids pc ∅) !! 7 = None.
Proof.
  cbv zeta. split; [reflexivity|]. split; [reflexivity|].
  refine (proj2 (proj2 (proj2 cleanup_stale_ids_exact) _ 7 _) _);
    reflexivity.
Defined.

(** ** The frame loop *)

Lemma aggregate_lobby_count a pc db :
  lobby_count (aggregate a pc db).1.1 = a.
Proof.
  unfold aggregate. destruct (decide (a ≠ lobby_count pc)) as [Hne|Heq].
  - by destruct (_log_event _ _).
  - simpl. destruct (decide (a = lobby_count pc)); [done|tauto].
Qed.

Lemma aggregate_events a pc db :
  head (outcomes db) ≠ Some false →
  (aggregate a pc db).2 = true ∧
  events (aggregate a pc db).1.2 =
    if decide (a ≠ lobby_count pc)
    then events db ++ [mkEvent "PRESENT" a] else events db.
Proof.
  intros Hok. unfold aggregate.
  destruct (decide (a ≠ lobby_count pc)) as [Hne|Heq]; [|done].
  unfold _log_event, sink_append. simpl.
  destruct (outcomes db) as [|[] rest]; simpl; try done.
Qed.

Lemma aggregate_fields a pc db :
  let pc' := (aggregate a pc db).1.1 in
  frame_index pc' = frame_index pc ∧ tracker pc' = tracker pc ∧
  last_seen pc' = last_seen pc ∧ skip_frames pc' = skip_frames pc.
Proof.
  unfold aggregate. destruct (decide (a ≠ lobby_count pc)); [|done].
  by destruct (_log_event _ _).
Qed.

(** A frame that passes the stride test runs lines 146-208. *)
Lemma loop_body_processed pc db f :
  (frame_index pc + 1) mod skip_frames pc = 0 →
  ∃ pc0,
    lobby_count pc0 = lobby_count pc ∧
    (loop_body pc db f).1.2 = (aggregate (current_lobby_of pc f) pc0 db).1.2 ∧
    lobby_count (loop_body pc db f).1.1 = current_lobby_of pc f ∧
    frame_index (loop_body pc db f).1.1 = frame_index pc + 1 ∧
    tracker (loop_body pc db f).1.1
      = (update (tracker pc) (centroid <$> kept_boxes pc f)).1 ∧
    ((loop_body pc db f).2 = Raised ↔
     (aggregate (current_lobby_of pc f) pc0 db).2 = false) ∧
    (loop_body pc db f).2 ≠ Skipped.
Proof.
  intros Hmod. unfold loop_body, current_lobby_of, active_ids. simpl.
  rewrite decide_False by (intros H; by apply H).
  destruct (update _ _) as [trk asg]. simpl.
  set (a := Z.of_nat (size _)).
  set (pc0 := _cleanup_stale_ids _ _).
  pose proof (aggregate_lobby_count a pc0 db) as Hl.
  pose proof (aggregate_fields a pc0 db) as (Hf1 & Hf2 & _).
  exists pc0.
  destruct (aggregate a pc0 db) as [[pc1 db1] ok]. simpl in *.
  destruct ok; destruct (f_encodes f); simpl;
    split_and!; try done; by split.
Qed.

Lemma aggregate_fails a pc db more :
  a ≠ lobby_count pc → outcomes db = false :: more →
  aggregate a pc db = (set_lobby_count a pc, mkSink (events db) more, false).
Proof.
  intros Hne Hout. unfold aggregate, _log_event, sink_append.
  rewrite decide_True by done. by rewrite Hout.
Qed.

(** C1. On a processed frame whose append is accepted by the sink, with [c]
    the recorded [lobby_count] before the frame and [a] the size of the
    active set after [update]: an event carrying [a] is appended iff
    [a ≠ c] (so an unchanged count appends nothing), and the recorded
    [lobby_count] afterwards is [a].  The aggregation step run over the
    counts 0,1,1,2,1 from a recorded count of 0 appends exactly the three
    events 1, 2, 1, in that order. *)
Theorem count_event_iff_changed (pc : PeopleCounter) (db : EventSink)
    (f : Frame)
    (Hprocessed : (frame_index pc + 1) mod skip_frames pc = 0)
    (Haccepted : head (outcomes db) ≠ Some false) :
  let c := lobby_count pc in
  let a := current_lobby_of pc f in
  let pc' := (loop_body pc db f).1.1 in
  let db' := (loop_body pc db f).1.2 in
  events db' = (if decide (a ≠ c)
                then events db ++ [mkEvent "PRESENT" a] else events db) ∧
  lobby_count pc' = a ∧
  (∀ pc0 db0,
     lobby_count pc0 = 0 → outcomes db0 = [] →
     events (aggregate_counts [0; 1; 1; 2; 1] pc0 db0).2
     = events db0 ++ [mkEvent "PRESENT" 1; mkEvent "PRESENT" 2;
                      mkEvent "PRESENT" 1]).
Proof.
  simpl.
  destruct (loop_body_processed pc db f Hprocessed)
    as (pc0 & Hc & Hdb & Hl & _).
  split_and!.
  - rewrite Hdb, <- Hc. by apply aggregate_events.
  - done.
  - intros [? ? ? ? ? ?] [ev out] Hzero Hout. simpl in *. subst.
    unfold aggregate_counts, aggregate, _log_event, sink_append. simpl.
    by rewrite <- !app_assoc.
Qed.

Lemma count_event_iff_changed_witness :
  let pc := PeopleCounter_init (1 # 2) 1 in
  let db := mkSink [] [] in
  let f := mkFrame [[mkBox 0 0 20 20 (9 # 10)]] true in
  (frame_index pc + 1) mod skip_frames pc = 0 ∧
  head (outcomes db) ≠ Some false ∧
  events (loop_body pc db f).1.2 =
    (if decide (current_lobby_of pc f ≠ lobby_count pc)
     then events db ++ [mkEvent "PRESENT" (current_lobby_of pc f)]
     else events db).
Proof.
  simpl. split; [reflexivity|]. split; [discriminate|].
  refine (proj1 (count_event_iff_changed
                   (PeopleCounter_init (1 # 2) 1) (mkSink [] [])
                   (mkFrame [[mkBox 0 0 20 20 (9 # 10)]] true) _ _)).
  - reflexivity.
  - discriminate.
Defined.

(** C5 (as the code has it). When the append of a changed count fails, the
    append is attempted once only and the failure is not caught: it ends
    [generate_frames] at that frame, which yields nothing; the frames after
    it are not read, no event is recorded, and the in-memory [lobby_count]
    already holds the new count. *)
Theorem append_failure_ends_loop (pc : PeopleCounter) (db : EventSink)
    (f : Frame) (rest : list Frame) (more : list bool)
    (Hprocessed : (frame_index pc + 1) mod skip_frames pc = 0)
    (Hchanged : current_lobby_of pc f ≠ lobby_count pc)
    (Hfails : outcomes db = false :: more) :
  let r := generate_frames pc db (f :: rest) in
  r_raised r = true ∧ r_unread r = rest ∧ r_yielded r = [] ∧
  outcomes (r_sink r) = more ∧ events (r_sink r) = events db ∧
  lobby_count (r_counter r) = current_lobby_of pc f ∧
  frame_index (r_counter r) = frame_index pc + 1.
Proof.
  destruct (loop_body_processed pc db f Hprocessed)
    as (pc0 & Hc & Hdb & Hl & Hfi & _ & Hr & _).
  rewrite aggregate_fails with (more := more) in Hdb, Hr by congruence.
  simpl in Hdb, Hr. cbn [generate_frames].
  destruct (loop_body pc db f) as [[pc1 db1] out]. simpl in *.
  rewrite (proj2 Hr eq_refl). simpl. by rewrite Hdb.
Qed.

Lemma append_failure_ends_loop_witness :
  let pc := PeopleCounter_init (1 # 2) 1 in
  let db := mkSink [] [false; true] in
  let f := mkFrame [[mkBox 0 0 20 20 (9 # 10)]] true in
  (frame_index pc + 1) mod skip_frames pc = 0 ∧
  current_lobby_of pc f ≠ lobby_count pc ∧
  outcomes db = [false; true] ∧
  r_raised (generate_frames pc db [f; f]) = true.
Proof.
  simpl. split; [reflexivity|]. split; [by vm_compute|]. split; [reflexivity|].
  refine (proj1 (append_failure_ends_loop
                   (PeopleCounter_init (1 # 2) 1) (mkSink [] [false; true])
                   (mkFrame [[mkBox 0 0 20 20 (9 # 10)]] true)
                   [mkFrame [[mkBox 0 0 20 20 (9 # 10)]] true] [true]
                   _ _ _)).
  - reflexivity.
  - by vm_compute.
  - reflexivity.
Defined.

(** C5, the claim refuted: the first append fails and a second attempt would
    succeed, yet one attempt only is made, nothing is recorded, the loop has
    ended and the second frame was never read. *)
Lemma append_failure_not_retried :
  let pc := PeopleCounter_init (1 # 2) 1 in
  let db := mkSink [] [false; true] in
  let f := mkFrame [[mkBox 0 0 20 20 (9 # 10)]] true in
  let r := generate_frames pc db [f; f] in
  outcomes (r_sink r) = [true] ∧ events (r_sink r) = [] ∧
  r_raised r = true ∧ r_unread r = [f] ∧
  frame_index (r_counter r) = 1.
Proof. by vm_compute. Qed.

(** C6. With stride [N = skip_frames], every frame read advances
    [frame_index] by one; the frame is skipped exactly when the advanced
    index is not a multiple of [N], a test on the index and [N] alone.  A
    skipped frame changes nothing but the index (tracker, count, memory and
    log are as before) and the generator goes on to the next frame without
    yielding; detection, tracking and aggregation happen on the other
    frames. *)
Theorem frame_skipping (pc : PeopleCounter) (db : EventSink) (f : Frame)
    (Hstride : 1 ≤ skip_frames pc) :
  let N := skip_frames pc in
  let r := loop_body pc db f in
  frame_index r.1.1 = frame_index pc + 1 ∧
  (r.2 = Skipped ↔ (frame_index pc + 1) mod N ≠ 0) ∧
  ((frame_index pc + 1) mod N ≠ 0 →
   r = (set_frame_index (frame_index pc + 1) pc, db, Skipped) ∧
   ∀ rest, generate_frames pc db (f :: rest) =
           generate_frames (set_frame_index (frame_index pc + 1) pc) db rest) ∧
  ((frame_index pc + 1) mod N = 0 →
   tracker r.1.1 = (update (tracker pc) (centroid <$> kept_boxes pc f)).1 ∧
   lobby_count r.1.1 = current_lobby_of pc f).
Proof.
  cbv zeta.
  assert ((frame_index pc + 1) mod skip_frames pc ≠ 0 →
          loop_body pc db f
          = (set_frame_index (frame_index pc + 1) pc, db, Skipped)) as Hskip.
  { intros Hne. unfold loop_body. simpl. by rewrite decide_True. }
  destruct (decide ((frame_index pc + 1) mod skip_frames pc = 0))
    as [Hmod|Hmod].
  - destruct (loop_body_processed pc db f Hmod)
      as (pc0 & _ & _ & Hl & Hfi & Ht & _ & Hns).
    split_and!.
    + done.
    + split; [done|]. intros Hne. by apply Hne in Hmod.
    + intros Hne. by apply Hne in Hmod.
    + done.
  - split_and!.
    + by rewrite (Hskip Hmod).
    + by rewrite (Hskip Hmod).
    + intros _. split; [by apply Hskip|]. intros rest.
      cbn [generate_frames]. by rewrite (Hskip Hmod).
    + done.
Qed.

Lemma frame_skipping_witness :
  let pc := PeopleCounter_init (1 # 2) 2 in
  let db := mkSink [] [] in
  let f := mkFrame [[mkBox 0 0 20 20 (9 # 10)]] true in
  1 ≤ skip_frames pc ∧
  ((loop_body pc db f).2 = Skipped ↔
   (frame_index pc + 1) mod skip_frames pc ≠ 0).
Proof.
  simpl. split; [lia|].
  refine (proj1 (proj2 (frame_skipping
                          (PeopleCounter_init (1 # 2) 2) (mkSink [] [])
                          (mkFrame [[mkBox 0 0 20 20 (9 # 10)]] true) _))).
  simpl. lia.
Defined.

(** C9. [current_stats], and with it the routes [/] and [/api/stats],
    returns the [lobby_count] of the most recent persisted event (0 when
    the log is empty) and overwrites the pipeline's in-memory [lobby_count]
    with it, leaving the rest of the pipeline as it was; the next processed
    frame then appends an event iff the active-set size differs from that
    stored value.  With a log ending in count 3 and a fresh pipeline, an
    empty frame appends an event 0 after [current_stats], and none
    without it. *)
Theorem current_stats_overwrites (pc : PeopleCounter) (db : EventSink)
    (f : Frame)
    (Hprocessed : (frame_index pc + 1) mod skip_frames pc = 0)
    (Haccepted : head (outcomes db) ≠ Some false) :
  let stored := match last (events db) with
                | Some e => ev_lobby_count e
                | None => 0
                end in
  let pc1 := (current_stats pc db).1 in
  let a := current_lobby_of pc1 f in
  (current_stats pc db).2 = stored ∧
  index pc db = current_stats pc db ∧ stats pc db = current_stats pc db ∧
  pc1 = set_lobby_count stored pc ∧
  events (loop_body pc1 db f).1.2 =
    (if decide (a ≠ stored)
     then events db ++ [mkEvent "PRESENT" a] else events db) ∧
  (let pc0 := PeopleCounter_init (1 # 2) 1 in
   let db0 := mkSink [mkEvent "PRESENT" 3] [] in
   let f0 := mkFrame [] true in
   events (loop_body pc0 db0 f0).1.2 = [mkEvent "PRESENT" 3] ∧
   events (loop_body (current_stats pc0 db0).1 db0 f0).1.2
   = [mkEvent "PRESENT" 3; mkEvent "PRESENT" 0]).
Proof.
  cbv zeta. split_and!.
  - done.
  - done.
  - done.
  - done.
  - destruct (loop_body_processed (current_stats pc db).1 db f Hprocessed)
      as (pc0 & Hc & Hdb & _).
    rewrite Hdb.
    destruct (aggregate_events (current_lobby_of (current_stats pc db).1 f)
                pc0 db Haccepted) as [_ ->].
    by rewrite Hc.
  - by vm_compute.
  - by vm_compute.
Qed.

Lemma current_stats_overwrites_witness :
  let pc := PeopleCounter_init (1 # 2) 1 in
  let db := mkSink [mkEvent "PRESENT" 3] [] in
  let f := mkFrame [] true in
  (frame_index pc + 1) mod skip_frames pc = 0 ∧
  head (outcomes db) ≠ Some false ∧
  (current_stats pc db).2 = 3.
Proof.
  simpl. split; [reflexivity|]. split; [discriminate|].
  refine (proj1 (current_stats_overwrites
                   (PeopleCounter_init (1 # 2) 1)
                   (mkSink [mkEvent "PRESENT" 3] [])
                   (mkFrame [] true) _ _)).
  - reflexivity.
  - discriminate.
Defined.

(** ** Reachable trackers *)

Lemma reachable_wf maxd maxdis frames :
  let t := (updates (CentroidTracker_init maxd maxdis) frames).1 in
  ids_wf t ∧ max_disappeared t = maxdis ∧ (0 ≤ maxdis → counts_wf t).
Proof.
  simpl. split_and!.
  - apply updates_ids_wf, ids_wf_init.
  - rewrite updates_max_disappeared; [done|apply ids_wf_init].
  - intros Hb. apply updates_counts_wf;
      [done|apply ids_wf_init|apply counts_wf_init].
Qed.

Lemma update_pair t dets : update t dets = ((update t dets).1, (update t dets).2).
Proof. by destruct (update t dets). Qed.

Lemma take_unmatched t k fs n :
  Forall (λ a, k ∉ a) (updates t fs).2 →
  Forall (λ a, k ∉ a) (updates t (take n fs)).2.
Proof.
  rewrite <- (take_drop n fs) at 1. rewrite updates_app. simpl.
  by intros [? _]%Forall_app.
Qed.

(** C2. After every call of [update] on a tracker with a non-negative
    budget, the active set is exactly the set of identities whose
    [disappeared] count is at most [max_disappeared].  An identity assigned
    by a call and then left unmatched by the next [max_disappeared + 1]
    calls is active after each of the first [max_disappeared] of them and
    not after the last; from then on no call assigns its id or has it
    active. *)
Theorem active_set_within_budget (maxd maxdis : Z)
    (frames : list (list point)) (dets : list point)
    (Hbudget : 0 ≤ maxdis) :
  let t := (updates (CentroidTracker_init maxd maxdis) frames).1 in
  let t' := (update t dets).1 in
  (∀ k, k ∈ active_ids t' ↔
        ∃ d, disappeared t' !! k = Some d ∧ d ≤ max_disappeared t') ∧
  max_disappeared t' = maxdis ∧
  (∀ k absent,
     k ∈ (update t dets).2 →
     length absent = Z.to_nat (maxdis + 1) →
     Forall (λ a, k ∉ a) (updates t' absent).2 →
     (∀ n, (n ≤ length absent)%nat →
           k ∈ active_ids (updates t' (take n absent)).1 ↔
           Z.of_nat n ≤ maxdis) ∧
     (∀ later,
        let gone := (updates t' absent).1 in
        Forall (λ a, k ∉ a) (updates gone later).2 ∧
        k ∉ active_ids (updates gone later).1)).
Proof.
  cbv zeta.
  destruct (reachable_wf maxd maxdis frames) as (Hwf & Hmax & Hc).
  set (t := (updates _ frames).1) in *.
  pose proof (update_pair t dets) as Hu.
  set (t' := (update t dets).1) in *.
  pose proof (update_spec _ _ _ _ Hwf Hu) as Hp.
  pose proof (update_ids_wf _ _ _ _ Hwf Hu) as Hwf'.
  assert (max_disappeared t' = maxdis) as Hmax'
      by (by rewrite (up_maxdis _ _ _ _ Hp)).
  assert (counts_wf t') as Hc'.
  { eapply update_counts_wf; [| |by apply Hc|done]; [lia|done]. }
  split_and!; [|done|].
  - intros k. split.
    + intros Hk.
      destruct (proj2 (wf_dom _ Hwf' k) (wf_active _ Hwf' k Hk)) as [d Hd].
      exists d. split; [done|]. specialize (Hc' k d Hd).
      rewrite decide_True in Hc' by done. lia.
    + intros (d & Hd & Hle). specialize (Hc' k d Hd).
      destruct (decide (k ∈ active_ids t')); [done|lia].
  - intros k absent Hk Hlen Habs.
    assert (k ∈ active_ids t') as Hact
        by (apply (up_active _ _ _ _ Hp); by left).
    assert (disappeared t' !! k = Some 0) as Hd0
        by (by rewrite (up_dis _ _ _ _ Hp), decide_True).
    split.
    + intros n Hn.
      destruct (absent_run t' k 0 (take n absent)) as [_ Hiff];
        try done; [lia|by apply take_unmatched|].
      rewrite Hiff, length_take, Hmax'. lia.
    + intros later.
      destruct (absent_run t' k 0 absent) as [_ Hiff]; try done; [lia|].
      destruct (retired_forever (updates t' absent).1 k later)
        as (H1 & H2 & _); [| | |done].
      * by apply updates_ids_wf.
      * pose proof (wf_active _ Hwf' k Hact).
        pose proof (updates_next_id_mono t' absent Hwf'). lia.
      * rewrite Hiff, Hmax'. lia.
Qed.

Lemma active_set_within_budget_witness :
  0 ≤ 12 ∧
  let t' := (update (updates (CentroidTracker_init 70 12) []).1
                    [(10, 10)]).1 in
  ∀ k, k ∈ active_ids t' ↔
       ∃ d, disappeared t' !! k = Some d ∧ d ≤ max_disappeared t'.
Proof.
  split; [lia|].
  refine (proj1 (active_set_within_budget 70 12 [] [(10, 10)] _)). lia.
Defined.

(** ** Empty frames *)

Lemma update_nil t :
  ids_wf t →
  (update t []).2 = [] ∧ next_id (update t []).1 = next_id t ∧
  ∀ k, k ∈ active_ids (update t []).1 → k ∈ active_ids t.
Proof.
  intros Hwf. pose proof (update_spec _ _ _ _ Hwf (update_pair t [])) as Hp.
  assert ((update t []).2 = []) as Hnil
      by (apply nil_length_inv, (up_len _ _ _ _ Hp)).
  split_and!; [done| |].
  - pose proof (up_new _ _ _ _ Hp) as Hnew. rewrite Hnil in Hnew.
    apply (f_equal length) in Hnew. rewrite length_seqZ in Hnew.
    simpl in Hnew. pose proof (up_next _ _ _ _ Hp). lia.
  - intros k [Hk|[Hk _]]%(up_active _ _ _ _ Hp); [|done].
    rewrite Hnil in Hk. by apply elem_of_nil in Hk.
Qed.

Lemma updates_empty t (N : nat) :
  ids_wf t →
  (∀ k, Forall (λ a, k ∉ a) (updates t (replicate N [])).2) ∧
  next_id (updates t (replicate N [])).1 = next_id t ∧
  ∀ k, k ∈ active_ids (updates t (replicate N [])).1 → k ∈ active_ids t.
Proof.
  revert t. induction N as [|N IH]; intros t Hwf.
  - simpl. split_and!; [intros; apply Forall_nil_2|done..].
  - cbn [replicate]. rewrite updates_cons. simpl.
    destruct (update_nil t Hwf) as (Hnil & Hn & Hact).
    destruct (IH (update t []).1) as (H1 & H2 & H3).
    { eapply update_ids_wf; [done|apply update_pair]. }
    split_and!.
    + intros k. apply Forall_cons. split; [|done].
      rewrite Hnil. apply not_elem_of_nil.
    + by rewrite H2.
    + auto.
Qed.

(** C8 (as the code has it). On a tracker with a non-negative budget, [N]
    consecutive calls of [update] with no detections allocate no id, add no
    identity to the active set or to the map, and take every identity's
    [disappeared] count from [d] to [min (d + N) (max_disappeared + 1)]: the
    count stops one above the threshold [max_disappeared], where the
    identity has left the active set.  One such call takes every tracked
    identity from [d] to [d + 1]. *)
Theorem empty_updates_age (maxd maxdis : Z) (frames : list (list point))
    (N : nat) (Hbudget : 0 ≤ maxdis) :
  let t := (updates (CentroidTracker_init maxd maxdis) frames).1 in
  let t' := (updates t (replicate N [])).1 in
  next_id t' = next_id t ∧
  (∀ k, k ∈ active_ids t' → k ∈ active_ids t) ∧
  (∀ k, is_Some (disappeared t' !! k) ↔ is_Some (disappeared t !! k)) ∧
  (∀ k d, disappeared t !! k = Some d →
          disappeared t' !! k
          = Some (Z.min (d + Z.of_nat N) (maxdis + 1))) ∧
  (∀ k d, k ∈ active_ids t → disappeared t !! k = Some d →
          disappeared (update t []).1 !! k = Some (d + 1)).
Proof.
  cbv zeta.
  destruct (reachable_wf maxd maxdis frames) as (Hwf & Hmax & Hc).
  specialize (Hc Hbudget).
  set (t := (updates _ frames).1) in *.
  destruct (updates_empty t N Hwf) as (Hun & Hn & Hact).
  pose proof (updates_ids_wf t (replicate N []) Hwf) as Hwf'.
  split_and!; [done|done| | |].
  - intros k. by rewrite (wf_dom _ Hwf'), (wf_dom _ Hwf), Hn.
  - intros k d Hd. pose proof (Hc k d Hd) as Hcd.
    destruct (decide (k ∈ active_ids t)) as [Hk|Hk].
    + destruct (absent_run t k d (replicate N [])) as [-> _];
        [done|done|done|lia|done|].
      by rewrite length_replicate, Hmax.
    + destruct (retired_forever t k (replicate N [])) as (_ & _ & ->);
        [done| |done|].
      * assert (is_Some (disappeared t !! k)) as Hs by (by eexists).
        apply (wf_dom _ Hwf) in Hs. lia.
      * rewrite Hd. f_equal. lia.
  - intros k d Hk Hd.
    pose proof (update_spec _ _ _ _ Hwf (update_pair t [])) as Hp.
    rewrite (up_dis _ _ _ _ Hp).
    rewrite (proj1 (update_nil t Hwf)).
    rewrite decide_False by apply not_elem_of_nil.
    rewrite decide_True by done. by rewrite Hd.
Qed.

Lemma empty_updates_age_witness :
  0 ≤ 12 ∧
  let t := (updates (CentroidTracker_init 70 12) [[(10, 10)]]).1 in
  next_id (updates t (replicate 3 [])).1 = next_id t.
Proof.
  split; [lia|].
  refine (proj1 (empty_updates_age 70 12 [[(10, 10)]] 3 _)). lia.
Defined.

(** C8, the claim refuted on the clamp: with [max_disappeared] 12, thirteen
    empty calls take identity 0 from count 0 to 13, above the threshold. *)
Lemma empty_updates_pass_threshold :
  let t := (update (CentroidTracker_init 70 12) [(10, 10)]).1 in
  let t' := (updates t (replicate 13 [])).1 in
  disappeared t !! 0 = Some 0 ∧ max_disappeared t = 12 ∧
  disappeared t' !! 0 = Some 13 ∧
  disappeared t' !! 0 ≠ Some (Z.min (0 + 13) (max_disappeared t)).
Proof. by vm_compute. Qed.

(** ** Allocation of ids *)

Lemma alloc_trace_seqZ t fs :
  ids_wf t →
  alloc_trace t fs = seqZ (next_id t) (next_id (updates t fs).1 - next_id t).
Proof.
  revert t. induction fs as [|dets rest IH]; intros t Hwf.
  - simpl. by rewrite Z.sub_diag, seqZ_nil.
  - cbn [alloc_trace]. rewrite updates_cons. simpl.
    pose proof (update_spec _ _ _ _ Hwf (update_pair t dets)) as Hp.
    pose proof (update_ids_wf _ _ _ _ Hwf (update_pair t dets)) as Hwf'.
    rewrite (IH _ Hwf'). unfold new_ids. rewrite (up_new _ _ _ _ Hp).
    pose proof (up_next _ _ _ _ Hp).
    pose proof (updates_next_id_mono (update t dets).1 rest Hwf').
    set (n1 := next_id (update t dets).1) in *.
    set (n2 := next_id (updates _ rest).1) in *.
    replace (n2 - next_id t) with ((n1 - next_id t) + (n2 - n1)) by lia.
    rewrite seqZ_app by lia. do 2 f_equal. lia.
Qed.

Lemma alloc_trace_app t fs1 fs2 :
  alloc_trace t (fs1 ++ fs2)
  = alloc_trace t fs1 ++ alloc_trace (updates t fs1).1 fs2.
Proof.
  revert t. induction fs1 as [|dets rest IH]; intros t; [done|].
  rewrite <- app_comm_cons. cbn [alloc_trace].
  rewrite updates_cons, IH. simpl. by rewrite app_assoc.
Qed.

(** A call with more detections than tracked identities allocates at least
    the surplus. *)
Lemma update_allocates t dets :
  ids_wf t →
  Z.of_nat (length dets) - Z.of_nat (length (active_ids t))
  ≤ next_id (update t dets).1 - next_id t.
Proof.
  intros Hwf.
  pose proof (update_spec _ _ _ _ Hwf (update_pair t dets)) as Hp.
  set (asg := (update t dets).2) in *.
  pose proof (filter_app_complement (λ k, k ∉ active_ids t) asg) as Hperm.
  apply Permutation_length in Hperm. rewrite length_app in Hperm.
  rewrite (up_new _ _ _ _ Hp), length_seqZ in Hperm.
  assert (length (filter (λ k, ¬ (k ∉ active_ids t)) asg)
          ≤ length (active_ids t))%nat as Hmatched.
  { apply submseteq_length, NoDup_submseteq.
    - apply NoDup_filter, (up_asg_nodup _ _ _ _ Hp).
    - intros k [Hk _]%list_elem_of_filter. by apply dec_stable in Hk. }
  pose proof (up_len _ _ _ _ Hp). pose proof (up_next _ _ _ _ Hp). lia.
Qed.

(** C10. The [disappeared] map of a tracker holds an entry for every id
    ever allocated, that is for every id from 0 up to [next_id], whether
    still active or not; its size is [next_id], the number of identities
    created so far.  No later call removes an entry, and for every bound
    some next call takes the size to that bound or beyond. *)
Theorem disappeared_never_shrinks (maxd maxdis : Z)
    (frames : list (list point)) :
  let t0 := CentroidTracker_init maxd maxdis in
  let t := (updates t0 frames).1 in
  (∀ k, is_Some (disappeared t !! k) ↔ 0 ≤ k < next_id t) ∧
  Z.of_nat (size (disappeared t)) = next_id t ∧
  length (alloc_trace t0 frames) = size (disappeared t) ∧
  (∀ more k, is_Some (disappeared t !! k) →
             is_Some (disappeared (updates t more).1 !! k)) ∧
  (∀ n : nat, ∃ dets,
     (n ≤ size (disappeared (update t dets).1))%nat).
Proof.
  cbv zeta.
  assert (∀ t, ids_wf t → Z.of_nat (size (disappeared t)) = next_id t)
    as Hsize.
  { intros t Hwf. rewrite <- size_dom.
    assert (dom (disappeared t) = list_to_set (seqZ 0 (next_id t))) as ->.
    { apply set_eq. intros k.
      rewrite elem_of_dom, (wf_dom _ Hwf), elem_of_list_to_set, elem_of_seqZ.
      lia. }
    rewrite size_list_to_set by apply NoDup_seqZ. rewrite length_seqZ.
    pose proof (wf_next _ Hwf). lia. }
  destruct (reachable_wf maxd maxdis frames) as (Hwf & _ & _).
  set (t := (updates _ frames).1) in *.
  split_and!.
  - apply (wf_dom _ Hwf).
  - by apply Hsize.
  - rewrite alloc_trace_seqZ by apply ids_wf_init. simpl.
    rewrite length_seqZ. fold t. rewrite Z.sub_0_r.
    rewrite <- (Hsize t Hwf). lia.
  - intros more k Hk.
    apply (wf_dom _ (updates_ids_wf t more Hwf)).
    apply (wf_dom _ Hwf) in Hk.
    pose proof (updates_next_id_mono t more Hwf). lia.
  - intros n. set (dets := replicate (length (active_ids t) + n) (0, 0)).
    exists dets.
    pose proof (update_allocates t dets Hwf) as Ha.
    unfold dets in Ha at 1. rewrite length_replicate in Ha.
    pose proof (update_ids_wf _ _ _ _ Hwf (update_pair t dets)) as Hwf'.
    pose proof (Hsize _ Hwf'). pose proof (wf_next _ Hwf). lia.
Qed.

(** C4. Over any sequence of calls on one tracker, the ids allocated, in
    order of allocation, are 0, 1, 2, ... up to [next_id]: each is greater
    than all before it and none occurs twice; the ids allocated by later
    calls continue the sequence from [next_id].  An id that was allocated
    and has left the active set is never assigned by a later call, never
    active again and never allocated again. *)
Theorem ids_strictly_increasing (maxd maxdis : Z)
    (frames : list (list point)) :
  let t0 := CentroidTracker_init maxd maxdis in
  let t := (updates t0 frames).1 in
  alloc_trace t0 frames = seqZ 0 (next_id t) ∧
  (∀ (i j : nat) a b,
     alloc_trace t0 frames !! i = Some a →
     alloc_trace t0 frames !! j = Some b → (i < j)%nat → a < b) ∧
  NoDup (alloc_trace t0 frames) ∧
  (∀ more,
     alloc_trace t0 (frames ++ more)
     = alloc_trace t0 frames ++ alloc_trace t more ∧
     ∀ a b, a ∈ alloc_trace t0 frames → b ∈ alloc_trace t more → a < b) ∧
  (∀ k more,
     0 ≤ k < next_id t → k ∉ active_ids t →
     Forall (λ a, k ∉ a) (updates t more).2 ∧
     (k ∉ active_ids (updates t more).1) ∧
     k ∉ alloc_trace t more).
Proof.
  cbv zeta.
  destruct (reachable_wf maxd maxdis frames) as (Hwf & _ & _).
  pose proof (alloc_trace_seqZ (CentroidTracker_init maxd maxdis) frames
                (ids_wf_init maxd maxdis)) as Htrace.
  simpl in Htrace. rewrite Z.sub_0_r in Htrace.
  set (t := (updates _ frames).1) in *.
  split_and!.
  - done.
  - intros i j a b. rewrite Htrace.
    intros [-> _]%lookup_seqZ [-> _]%lookup_seqZ Hij. lia.
  - rewrite Htrace. apply NoDup_seqZ.
  - intros more. split; [apply alloc_trace_app|].
    intros a b. rewrite Htrace, (alloc_trace_seqZ t more Hwf).
    intros Ha%elem_of_seqZ Hb%elem_of_seqZ. lia.
  - intros k more Hk Hout.
    destruct (retired_forever t k more) as (H1 & H2 & _); [done|lia|done|].
    split_and!; [done|done|].
    rewrite (alloc_trace_seqZ t more Hwf). intros Hin%elem_of_seqZ. lia.
Qed.

(** ** Greedy matching *)

Lemma scan_inv_skip pre used c maxd best_id best_dist e :
  ¬ candidate used c maxd e →
  scan_inv pre used c maxd best_id best_dist →
  scan_inv (pre ++ [e]) used c maxd best_id best_dist.
Proof.
  intros Hnc. unfold scan_inv.
  destruct best_id as [id|], best_dist as [d|]; try done.
  - intros (i & p & Hi & Hd & Hcand & Hmin). exists i, p.
    split_and!; try done.
    + rewrite lookup_app_l; [done|]. by eapply lookup_lt_Some.
    + intros j e' [Hj|[_ Hj]]%lookup_app_Some Hc'; [by apply Hmin|].
      apply list_lookup_singleton_Some in Hj as [_ <-]. done.
  - intros Hnone e' [He'| ->%list_elem_of_singleton]%elem_of_app; auto.
Qed.

Lemma scan_objects_inv items :
  ∀ pre used c maxd best_id best_dist,
  scan_inv pre used c maxd best_id best_dist →
  ∃ bd, scan_inv (pre ++ items) used c maxd
          (scan_objects items used c maxd best_id best_dist) bd.
Proof.
  induction items as [|[k [ox oy]] rest IH];
    intros pre used c maxd best_id best_dist Hinv.
  - simpl. rewrite app_nil_r. by exists best_dist.
  - rewrite cons_middle, app_assoc. cbn [scan_objects].
    destruct (decide (k ∈ used)) as [Hu|Hu].
    { apply IH, scan_inv_skip; [|done]. by intros [? _]. }
    change (hypot2 (c.1 - ox) (c.2 - oy)) with (dist2 c (ox, oy)).
    destruct (lt_best _ _ && lt_max _ _) eqn:Hcond.
    + apply andb_true_iff in Hcond as [Hlt Hmax].
      apply IH. unfold scan_inv.
      exists (length pre), (ox, oy). split_and!.
      * by rewrite list_lookup_middle.
      * done.
      * done.
      * intros j e [Hj|[Hge Hj]]%lookup_app_Some Hc'.
        -- pose proof (lookup_lt_Some _ _ _ Hj) as Hjl.
           unfold scan_inv in Hinv.
           destruct best_id as [id|], best_dist as [d|]; try done.
           ++ destruct Hinv as (i & p & _ & _ & _ & Hmin).
              destruct (Hmin j e Hj Hc') as [Hle _].
              simpl in Hlt. apply Z.ltb_lt in Hlt. lia.
           ++ exfalso. eapply Hinv; [|done]. by eapply list_elem_of_lookup_2.
        -- apply list_lookup_singleton_Some in Hj as [Hj0 <-]. simpl.
           split; [lia|]. lia.
    + apply andb_false_iff in Hcond as [Hlt|Hmax].
      * destruct (lt_max (dist2 c (ox, oy)) maxd) eqn:Hmax.
        -- (* a candidate, but not closer than the best so far *)
           apply IH. unfold scan_inv in *.
           destruct best_id as [id|], best_dist as [d|]; try done.
           destruct Hinv as (i & p & Hi & Hd & Hcand & Hmin).
           pose proof (lookup_lt_Some _ _ _ Hi) as Hil.
           exists i, p. split_and!; try done.
           { by rewrite lookup_app_l. }
           intros j e [Hj|[Hge Hj]]%lookup_app_Some Hc'; [by apply Hmin|].
           apply list_lookup_singleton_Some in Hj as [Hj0 <-]. simpl.
           simpl in Hlt. apply Z.ltb_ge in Hlt. split; [lia|]. lia.
        -- apply IH, scan_inv_skip; [|done]. intros [_ Hc']. simpl in Hc'.
           congruence.
      * apply IH, scan_inv_skip; [|done]. intros [_ Hc']. simpl in Hc'.
        congruence.
Qed.

(** What the scan returns: the first entry, in the dict's order, among the
    unclaimed entries of least distance, provided that distance is strictly
    under the maximum; nothing when no unclaimed entry is under it. *)
Lemma scan_objects_spec objs used c maxd :
  match scan_objects objs used c maxd None None with
  | Some id =>
      ∃ (i : nat) p,
        objs !! i = Some (id, p) ∧ (id ∉ used) ∧
        lt_max (dist2 c p) maxd = true ∧
        ∀ (j : nat) id' p', objs !! j = Some (id', p') → id' ∉ used →
          dist2 c p ≤ dist2 c p' ∧ ((j < i)%nat → dist2 c p < dist2 c p')
  | None =>
      ∀ id' p', (id', p') ∈ objs → id' ∉ used →
                lt_max (dist2 c p') maxd = false
  end.
Proof.
  destruct (scan_objects_inv objs [] used c maxd None None) as [bd Hinv].
  { intros e He. by apply elem_of_nil in He. }
  rewrite app_nil_l in Hinv. unfold scan_inv in Hinv.
  destruct (scan_objects objs used c maxd None None) as [id|].
  - destruct bd as [d|]; [|done].
    destruct Hinv as (i & p & Hi & -> & [Hu Hmax] & Hmin). simpl in *.
    exists i, p. split_and!; try done.
    intros j id' p' Hj Hu'.
    destruct (lt_max (dist2 c p') maxd) eqn:Hmax'.
    + by apply (Hmin j (id', p')).
    + unfold lt_max in Hmax, Hmax'.
      apply andb_true_iff in Hmax as [H0%Z.ltb_lt Hd%Z.ltb_lt].
      apply andb_false_iff in Hmax' as [H0'%Z.ltb_ge|Hd'%Z.ltb_ge]; lia.
  - destruct bd as [d|]; [done|].
    intros id' p' Hin Hu'.
    destruct (lt_max (dist2 c p') maxd) eqn:Hmax'; [|done].
    exfalso. by apply (Hinv (id', p') Hin).
Qed.

Lemma match_loop_take objs maxd dets :
  ∀ i s,
  take i (m_assignments (match_loop objs maxd i dets s))
  = take i (m_assignments s).
Proof.
  induction dets as [|c rest IH]; intros i s; [done|].
  cbn [match_loop].
  replace i with (i `min` S i)%nat at 1 by lia.
  rewrite <- take_take, IH, take_take.
  replace (i `min` S i)%nat with i by lia.
  unfold match_step. destruct (scan_objects _ _ _ _ _ _); simpl;
    by rewrite take_insert_ge.
Qed.

Lemma match_step_assign objs maxd n0 D0 len i c s :
  (i < len)%nat →
  match_inv objs n0 D0 len i s →
  m_assignments (match_step objs maxd i c s) !! i
  = Some (greedy_choice objs maxd n0 (take i (m_assignments s)) c).
Proof.
  intros Hi [Hn _ _ _ _ Hl Ha _ Hf].
  assert (m_used_ids s = list_to_set (take i (m_assignments s))) as Hused.
  { apply set_eq. intros k. by rewrite elem_of_list_to_set, Ha. }
  assert (m_next_id s
          = n0 + Z.of_nat (length (filter (λ k, k ∉ dict_keys objs)
                                          (take i (m_assignments s)))))
    as Hnext.
  { rewrite Hf, length_seqZ. lia. }
  unfold match_step, greedy_choice. rewrite <- Hused.
  destruct (scan_objects _ _ _ _ _ _); simpl;
    rewrite list_lookup_insert_eq by lia; [done|by rewrite <- Hnext].
Qed.

Lemma match_loop_assign objs maxd n0 D0 len dets :
  (∀ k, k ∈ dict_keys objs → k < n0) →
  ∀ i s,
  (i + length dets = len)%nat →
  match_inv objs n0 D0 len i s →
  ∀ (j : nat) c, dets !! j = Some c →
    let asg := m_assignments (match_loop objs maxd i dets s) in
    asg !! (i + j)%nat
    = Some (greedy_choice objs maxd n0 (take (i + j) asg) c).
Proof.
  intros Hold. induction dets as [|c0 rest IH]; intros i s Hlen Hinv j c Hj.
  - by rewrite lookup_nil in Hj.
  - simpl in Hlen. cbn [match_loop]. cbv zeta.
    destruct j as [|j].
    + simpl in Hj. injection Hj as ->. rewrite Nat.add_0_r.
      pose proof (match_loop_take objs maxd rest (S i)
                    (match_step objs maxd i c s)) as Htake.
      set (sf := match_loop _ _ _ _ _) in *.
      assert (take i (m_assignments sf) = take i (m_assignments s)) as Hti.
      { replace i with (i `min` S i)%nat at 1 by lia.
        rewrite <- take_take, Htake, take_take.
        replace (i `min` S i)%nat with i by lia.
        unfold match_step. destruct (scan_objects _ _ _ _ _ _); simpl;
          by rewrite take_insert_ge. }
      rewrite Hti.
      rewrite <- (lookup_take_lt _ (S i)) by lia. rewrite Htake.
      rewrite lookup_take_lt by lia.
      eapply match_step_assign; [|done]. lia.
    + simpl in Hj. replace (i + S j)%nat with (S i + j)%nat by lia.
      apply (IH (S i) (match_step objs maxd i c0 s)); [lia| |done].
      apply match_step_inv; [done|lia|done].
Qed.

(** Every detection, in input order, gets [greedy_choice] over the ids given
    to the detections before it. *)
Lemma update_assignments t dets (i : nat) c :
  ids_wf t → dets !! i = Some c →
  (update t dets).2 !! i
  = Some (greedy_choice (objects t) (max_distance t) (next_id t)
                        (take i (update t dets).2) c).
Proof.
  intros Hwf Hi. pose proof (lookup_lt_Some _ _ _ Hi) as Hlt.
  unfold update.
  destruct (Nat.eqb_spec (length (objects t)) 0) as [Hempty|Hne].
  - apply nil_length_inv in Hempty.
    destruct (register_loop 0 dets t (replicate (length dets) (-1)))
      as [t' asg] eqn:Hrun.
    apply register_loop_spec in Hrun as (_ & _ & _ & Hl & Ht & _).
    + rewrite length_replicate in Hl. simpl in Ht.
      rewrite take_ge in Ht by lia. simpl. subst asg.
      unfold greedy_choice. rewrite Hempty. simpl.
      rewrite filter_all by (intros; apply not_elem_of_nil).
      rewrite length_take, length_seqZ.
      rewrite lookup_seqZ_lt by lia. do 2 f_equal. lia.
    + intros k Hk. apply (wf_active _ Hwf) in Hk. lia.
    + rewrite length_replicate. lia.
  - destruct (age_loop _ _ _ _ _) as [N' D']. simpl.
    apply (match_loop_assign (objects t) (max_distance t) (next_id t)
             (disappeared t) (length dets) dets) with (i := 0%nat) (j := i).
    + intros k Hk. apply (wf_active _ Hwf) in Hk. lia.
    + done.
    + apply match_inv_init.
    + done.
Qed.

(** C3, the claim refuted on the tie rule: after two calls the dict holds id
    1 before id 0; detection (5,0) is at the same distance from both, under
    [max_distance], both are unclaimed, and it is given id 1, not the
    smaller id 0. *)
Lemma tie_goes_to_dict_order_not_smaller_id :
  let t := (updates (CentroidTracker_init 70 12)
                    [[(0, 0); (10, 0)]; [(10, 0)]]).1 in
  objects t = [(1, (10, 0)); (0, (0, 0))] ∧
  dist2 (5, 0) (0, 0) = dist2 (5, 0) (10, 0) ∧
  lt_max (dist2 (5, 0) (0, 0)) (max_distance t) = true ∧
  (update t [(5, 0)]).2 = [1].
Proof. by vm_compute. Qed.

(** * Further properties of the tracker *)

(** ** The dict built by one call *)

Lemma dict_set_notin {V : Type} (d : list (Z * V)) (k : Z) (v : V) :
  k ∉ dict_keys d → dict_set d k v = d ++ [(k, v)].
Proof.
  unfold dict_keys. induction d as [|[k' v'] r IH]; simpl; [done|].
  intros [Hne Hr]%not_elem_of_cons.
  destruct (decide (k' = k)); [congruence|]. f_equal. by apply IH.
Qed.

Lemma dict_get_elem {V : Type} (d : list (Z * V)) (k : Z) (v : V) :
  NoDup (dict_keys d) → (k, v) ∈ d → dict_get d k = Some v.
Proof.
  unfold dict_keys. induction d as [|[k' v'] r IH]; simpl.
  - intros _ H. by apply elem_of_nil in H.
  - intros [Hk' Hnd]%NoDup_cons [Heq|Hin]%elem_of_cons.
    + injection Heq as -> ->. by rewrite decide_True.
    + destruct (decide (k' = k)) as [->|Hne]; [|by apply IH].
      exfalso. apply Hk'. apply list_elem_of_fmap. by exists (k, v).
Qed.

Lemma dict_get_None {V : Type} (d : list (Z * V)) (k : Z) :
  k ∉ dict_keys d → dict_get d k = None.
Proof.
  unfold dict_keys. induction d as [|[k' v'] r IH]; simpl; [done|].
  intros [Hne Hr]%not_elem_of_cons.
  destruct (decide (k' = k)); [congruence|]. by apply IH.
Qed.

Lemma filter_ext_elem {A : Type} (P Q : A → Prop)
    `{∀ x, Decision (P x)} `{∀ x, Decision (Q x)} (l : list A) :
  (∀ x, x ∈ l → P x ↔ Q x) → filter P l = filter Q l.
Proof.
  induction l as [|x l IH]; intros Hext; [done|].
  rewrite !filter_cons.
  rewrite IH by (intros y Hy; apply Hext; by apply list_elem_of_further).
  destruct (decide (P x)) as [HP|HP], (decide (Q x)) as [HQ|HQ]; try done.
  - exfalso. apply HQ, Hext; [apply list_elem_of_here|done].
  - exfalso. apply HP, Hext; [apply list_elem_of_here|done].
Qed.

Lemma match_step_fresh objs maxd n0 D0 len i c s :
  (∀ k, k ∈ dict_keys objs → k < n0) →
  match_inv objs n0 D0 len i s →
  ∃ x, (x ∉ dict_keys (m_new_objects s)) ∧
       m_new_objects (match_step objs maxd i c s)
       = dict_set (m_new_objects s) x c ∧
       m_assignments (match_step objs maxd i c s)
       = <[i := x]> (m_assignments s).
Proof.
  intros Hold Hinv. unfold match_step.
  destruct (scan_objects _ _ _ _ _ _) as [best|] eqn:Hscan; simpl.
  - exists best. split; [|done].
    apply scan_objects_fresh in Hscan as [_ Hnu].
    by rewrite (mi_keys _ _ _ _ _ _ Hinv).
  - exists (m_next_id s). split; [|done].
    rewrite (mi_keys _ _ _ _ _ _ Hinv).
    intros [Hk|Hk]%(mi_used _ _ _ _ _ _ Hinv); [|lia].
    apply Hold in Hk. pose proof (mi_next _ _ _ _ _ _ Hinv). lia.
Qed.

(** The greedy loop leaves in [new_objects] the detections under their
    assigned ids, in detection order. *)
Lemma match_loop_objects objs maxd n0 D0 (all : list point) :
  (∀ k, k ∈ dict_keys objs → k < n0) →
  ∀ dets i s,
  (i + length dets = length all)%nat →
  drop i all = dets →
  match_inv objs n0 D0 (length all) i s →
  m_new_objects s = zip (take i (m_assignments s)) (take i all) →
  let sf := match_loop objs maxd i dets s in
  m_new_objects sf = zip (m_assignments sf) all.
Proof.
  intros Hold. induction dets as [|c rest IH]; intros i s Hlen Hdrop Hinv Hobj.
  - simpl in *. rewrite Nat.add_0_r in Hlen. subst i.
    rewrite Hobj.
    rewrite !take_ge; [done|lia|]. rewrite (mi_len _ _ _ _ _ _ Hinv). lia.
  - simpl in Hlen. cbn [match_loop]. cbv zeta.
    assert (all !! i = Some c) as Hc.
    { rewrite <- (Nat.add_0_r i), <- lookup_drop, Hdrop. done. }
    apply IH.
    + lia.
    + apply (f_equal (drop 1)) in Hdrop. rewrite drop_drop in Hdrop.
      simpl in Hdrop. rewrite drop_0 in Hdrop.
      by replace (S i) with (i + 1)%nat by lia.
    + apply match_step_inv; [done|lia|done].
    + destruct (match_step_fresh objs maxd n0 D0 (length all) i c s Hold Hinv)
        as (x & Hfresh & -> & ->).
      rewrite dict_set_notin by done.
      rewrite take_S_insert by (rewrite (mi_len _ _ _ _ _ _ Hinv); lia).
      rewrite (take_S_r _ _ c) by done.
      rewrite zip_with_app; [by rewrite Hobj|].
      rewrite !length_take_le; [done|lia|].
      rewrite (mi_len _ _ _ _ _ _ Hinv). lia.
Qed.

(** The ageing loop appends, in their old order and with their old
    centroids, the identities that are not yet in [new_objects] and whose
    incremented counter is within the budget. *)
Lemma age_loop_objects objs maxdis items :
  NoDup items.*1 →
  (∀ k p, (k, p) ∈ items → dict_get objs k = Some p) →
  ∀ N D,
  (age_loop objs maxdis items.*1 N D).1
  = N ++ filter (λ e, (e.1 ∉ dict_keys N) ∧
                      default 0 (D !! e.1) + 1 ≤ maxdis) items.
Proof.
  induction items as [|[k p] rest IH]; intros Hnd Hget N D.
  - simpl. by rewrite filter_nil, app_nil_r.
  - rewrite fmap_cons in Hnd. apply NoDup_cons in Hnd as [Hk Hnd].
    assert (∀ k' p', (k', p') ∈ rest → dict_get objs k' = Some p') as Hget'
        by (intros; apply Hget; by apply list_elem_of_further).
    rewrite fmap_cons. cbn [age_loop fst].
    destruct (dict_has N k) eqn:Hhas.
    + apply dict_has_true in Hhas.
      rewrite IH by done.
      rewrite filter_cons_False; [done|]. simpl. by intros [? _].
    + apply dict_has_false in Hhas.
      rewrite (Hget k p) by apply list_elem_of_here.
      destruct (Z.leb_spec (default 0 (D !! k) + 1) maxdis) as [Hle|Hgt].
      * rewrite IH by done. rewrite dict_set_notin by done.
        rewrite filter_cons_True by done. rewrite <- app_assoc. simpl.
        do 2 f_equal. apply filter_ext_elem. intros [k' p'] Hin. simpl.
        assert (k' ≠ k) as Hne.
        { intros ->. apply Hk. apply list_elem_of_fmap. by exists (k, p'). }
        rewrite lookup_insert_ne by done.
        unfold dict_keys. rewrite fmap_app, elem_of_app. simpl.
        rewrite list_elem_of_singleton. tauto.
      * rewrite IH by done.
        rewrite filter_cons_False by (simpl; intros [_ ?]; lia).
        f_equal. apply filter_ext_elem. intros [k' p'] Hin. simpl.
        assert (k' ≠ k) as Hne.
        { intros ->. apply Hk. apply list_elem_of_fmap. by exists (k, p'). }
        by rewrite lookup_insert_ne by done.
Qed.

Lemma register_loop_objects dets :
  ∀ i t asg,
  (∀ k, k ∈ dict_keys (objects t) → k < next_id t) →
  objects (register_loop i dets t asg).1
  = objects t ++ zip (seqZ (next_id t) (Z.of_nat (length dets))) dets.
Proof.
  induction dets as [|c rest IH]; intros i t asg Hold.
  - simpl. by rewrite app_nil_r.
  - cbn [register_loop]. rewrite IH; simpl.
    + assert (next_id t ∉ dict_keys (objects t)) as Hfresh
          by (intros H%Hold; lia).
      rewrite dict_set_notin by done. rewrite <- app_assoc. f_equal.
      rewrite Nat2Z.inj_succ, (seqZ_cons (next_id t)) by lia.
      rewrite Z.pred_succ. simpl.
      by replace (Z.succ (next_id t)) with (next_id t + 1) by lia.
    + intros k [->|Hk]%elem_of_dict_keys_set; [lia|].
      apply Hold in Hk. lia.
Qed.

Lemma update_objects_eq t dets :
  ids_wf t →
  objects (update t dets).1
  = zip (update t dets).2 dets
    ++ filter (λ e, (e.1 ∉ (update t dets).2) ∧
                    default 0 (disappeared t !! e.1) + 1 ≤ max_disappeared t)
              (objects t).
Proof.
  intros Hwf. unfold update.
  destruct (Nat.eqb_spec (length (objects t)) 0) as [Hempty|Hne].
  - apply nil_length_inv in Hempty.
    pose proof (register_loop_objects dets 0 t
                  (replicate (length dets) (-1))) as Hobj.
    destruct (register_loop 0 dets t (replicate (length dets) (-1)))
      as [t' asg] eqn:Hrun.
    apply register_loop_spec in Hrun as (_ & _ & _ & Hl & Ht & _).
    + rewrite length_replicate in Hl. simpl in Ht.
      rewrite take_ge in Ht by lia. simpl in *. subst asg.
      rewrite Hobj, Hempty; [by rewrite filter_nil, app_nil_r|].
      rewrite Hempty. intros k Hk. by apply elem_of_nil in Hk.
    + intros k Hk. apply (wf_active _ Hwf) in Hk. lia.
    + rewrite length_replicate. lia.
  - assert (∀ k, k ∈ dict_keys (objects t) → k < next_id t) as Hold.
    { intros k Hk. apply (wf_active _ Hwf) in Hk. lia. }
    pose proof (match_inv_init (objects t) (next_id t) (disappeared t)
                  (length dets)) as Hinit.
    pose proof (match_loop_inv (objects t) (max_distance t) (next_id t)
                  (disappeared t) (length dets) dets 0 _ Hold eq_refl Hinit)
      as Hinv.
    pose proof (match_loop_objects (objects t) (max_distance t) (next_id t)
                  (disappeared t) dets Hold dets 0 _ eq_refl eq_refl Hinit
                  eq_refl) as Hobj.
    cbv zeta in Hobj.
    set (s := match_loop _ _ _ _ _) in *.
    pose proof (age_loop_objects (objects t) (max_disappeared t) (objects t)
                  (wf_nodup _ Hwf)
                  (λ k p, dict_get_elem (objects t) k p (wf_nodup _ Hwf))
                  (m_new_objects s) (m_disappeared s)) as Hage.
    fold (dict_keys (objects t)) in Hage.
    destruct (age_loop _ _ _ _ _) as [N' D']. simpl in *.
    rewrite Hage, Hobj. f_equal.
    assert (dict_keys (zip (m_assignments s) dets) = m_assignments s) as Hk.
    { unfold dict_keys. apply fst_zip.
      rewrite (mi_len _ _ _ _ _ _ Hinv). lia. }
    apply filter_ext_elem. intros [k p] _. simpl. rewrite Hk.
    destruct (decide (k ∈ m_assignments s)) as [Hin|Hout]; [tauto|].
    rewrite (mi_dis _ _ _ _ _ _ Hinv).
    rewrite decide_False; [tauto|].
    rewrite <- (mi_asg _ _ _ _ _ _ Hinv).
    rewrite take_ge; [done|]. rewrite (mi_len _ _ _ _ _ _ Hinv). lia.
Qed.

(** ** Coordinates in range *)

Lemma forallb_in_range (dets : list point) (c : point) :
  forallb in_pixel_range dets = true → c ∈ dets → in_pixel_range c = true.
Proof.
  intros Hall Hc. apply list_elem_of_In in Hc.
  by apply (proj1 (forallb_forall in_pixel_range dets) Hall).
Qed.

(** The stored centroids are detections: when every detection is in range,
    so is every operand of every comparison the scan makes. *)
Lemma update_in_range t dets :
  ids_wf t →
  (∀ e, e ∈ objects t → in_pixel_range e.2 = true) →
  forallb in_pixel_range dets = true →
  ∀ e, e ∈ objects (update t dets).1 → in_pixel_range e.2 = true.
Proof.
  intros Hwf Hobj Hdets [k p]. rewrite (update_objects_eq t dets Hwf).
  intros [Hz|Hf]%elem_of_app.
  - apply elem_of_zip_r in Hz. by apply (forallb_in_range dets).
  - apply list_elem_of_filter in Hf as [_ Hin]. by apply Hobj.
Qed.

Lemma updates_in_range frames :
  ∀ t,
  ids_wf t →
  (∀ e, e ∈ objects t → in_pixel_range e.2 = true) →
  frames_in_range frames = true →
  ∀ e, e ∈ objects (updates t frames).1 → in_pixel_range e.2 = true.
Proof.
  induction frames as [|dets rest IH]; intros t Hwf Hobj Hfr; [done|].
  unfold frames_in_range in Hfr. simpl in Hfr.
  apply andb_true_iff in Hfr as [Hd Hrest].
  rewrite updates_cons. simpl. apply IH.
  - eapply update_ids_wf; [done|apply update_pair].
  - by apply update_in_range.
  - done.
Qed.

Lemma reachable_in_range maxd maxdis frames :
  frames_in_range frames = true →
  ∀ e, e ∈ objects (updates (CentroidTracker_init maxd maxdis) frames).1 →
       in_pixel_range e.2 = true.
Proof.
  intros Hfr. apply updates_in_range; [apply ids_wf_init| |done].
  intros e He. by apply elem_of_nil in He.
Qed.

(** C3 (as the code has it). For detections with coordinates in range, on
    every call so far and on this one, the centroids stored by the tracker
    are in range too, and [update] matches greedily in one pass over the
    detections in input order: detection number [i] takes the scan's choice
    among the identities not given to detections 0..[i-1], and when the scan
    finds none it takes the next fresh id.  The scan's choice is an
    unclaimed identity strictly under [max_distance] whose distance is least
    among the unclaimed ones; among several at that least distance it is the
    one that comes first in the iteration order of the [objects] dict.  Every
    assigned id, matched or fresh, has [disappeared] 0 and is active after
    the call.  With tracker {0:(10,10)} and [max_distance] 50, detection
    (15,12) is given id 0 and [disappeared[0]] is 0. *)
Theorem greedy_matching_in_dict_order (maxd maxdis : Z)
    (frames : list (list point)) (dets : list point)
    (Hframes : frames_in_range frames = true)
    (Hdets : forallb in_pixel_range dets = true) :
  let t := (updates (CentroidTracker_init maxd maxdis) frames).1 in
  let t' := (update t dets).1 in
  let asg := (update t dets).2 in
  length asg = length dets ∧
  (∀ id p, (id, p) ∈ objects t → in_pixel_range p = true) ∧
  (∀ (i : nat) c, dets !! i = Some c →
     asg !! i = Some (greedy_choice (objects t) maxd (next_id t)
                                    (take i asg) c)) ∧
  (∀ used c, c ∈ dets →
     match scan_objects (objects t) used c maxd None None with
     | Some id =>
         ∃ (i : nat) p,
           objects t !! i = Some (id, p) ∧ (id ∉ used) ∧
           lt_max (dist2 c p) maxd = true ∧
           ∀ (j : nat) id' p', objects t !! j = Some (id', p') → id' ∉ used →
             dist2 c p ≤ dist2 c p' ∧
             ((j < i)%nat → dist2 c p < dist2 c p')
     | None =>
         ∀ id' p', (id', p') ∈ objects t → id' ∉ used →
                   lt_max (dist2 c p') maxd = false
     end) ∧
  (∀ (i : nat) a, asg !! i = Some a →
     a ∈ active_ids t ∨ next_id t ≤ a < next_id t') ∧
  (∀ a, a ∈ asg → disappeared t' !! a = Some 0 ∧ a ∈ active_ids t') ∧
  (let t1 := (update (CentroidTracker_init 50 10) [(10, 10)]).1 in
   objects t1 = [(0, (10, 10))] ∧
   (update t1 [(15, 12)]).2 = [0] ∧
   disappeared (update t1 [(15, 12)]).1 !! 0 = Some 0).
Proof.
  cbv zeta.
  destruct (reachable_wf maxd maxdis frames) as (Hwf & _ & _).
  pose proof (updates_max_distance (CentroidTracker_init maxd maxdis) frames
                (ids_wf_init maxd maxdis)) as Hmaxd.
  simpl in Hmaxd.
  pose proof (reachable_in_range maxd maxdis frames Hframes) as Hrange.
  set (t := (updates _ frames).1) in *.
  pose proof (update_spec _ _ _ _ Hwf (update_pair t dets)) as Hp.
  split_and!.
  - apply (up_len _ _ _ _ Hp).
  - intros id p Hin. apply (Hrange (id, p) Hin).
  - intros i c Hi. rewrite <- Hmaxd. by apply update_assignments.
  - intros used c _. apply scan_objects_spec.
  - intros i a Hi. eapply update_assigned; [done|apply update_pair|].
    by eapply list_elem_of_lookup_2.
  - intros a Ha. split.
    + by rewrite (up_dis _ _ _ _ Hp), decide_True.
    + apply (up_active _ _ _ _ Hp). by left.
  - by vm_compute.
  - by vm_compute.
  - by vm_compute.
Qed.

Lemma greedy_matching_in_dict_order_witness :
  frames_in_range [[(0, 0); (10, 0)]; [(10, 0)]] = true ∧
  forallb in_pixel_range [(5, 0)] = true ∧
  length (update (updates (CentroidTracker_init 70 12)
                          [[(0, 0); (10, 0)]; [(10, 0)]]).1 [(5, 0)]).2
  = length [(5, 0)].
Proof.
  split; [reflexivity|]. split; [reflexivity|].
  refine (proj1 (greedy_matching_in_dict_order 70 12
                   [[(0, 0); (10, 0)]; [(10, 0)]] [(5, 0)] _ _));
    reflexivity.
Defined.

(** ** What a caller of [update] can rely on *)

(** X1. The dict returned by [update] holds first the detections, each
    under its assigned id and in detection order, then the identities that
    no detection took and whose incremented counter is within the budget, in
    their previous order and with their previous centroids. *)
Theorem update_rebuilds_objects (maxd maxdis : Z)
    (frames : list (list point)) (dets : list point) :
  let t := (updates (CentroidTracker_init maxd maxdis) frames).1 in
  let asg := (update t dets).2 in
  objects (update t dets).1
  = zip asg dets
    ++ filter (λ e, (e.1 ∉ asg) ∧
                    default 0 (disappeared t !! e.1) + 1 ≤ max_disappeared t)
              (objects t).
Proof.
  cbv zeta. apply update_objects_eq.
  apply (reachable_wf maxd maxdis frames).
Qed.

(** X2. [update] returns one id per detection, no id twice, and every id is
    an allocated one (from 0 up to the new [next_id]); in particular the
    initial filler -1 never survives in the returned list. *)
Theorem assignments_one_to_one (maxd maxdis : Z)
    (frames : list (list point)) (dets : list point) :
  let t := (updates (CentroidTracker_init maxd maxdis) frames).1 in
  let asg := (update t dets).2 in
  length asg = length dets ∧ NoDup asg ∧
  (∀ a, a ∈ asg → 0 ≤ a < next_id (update t dets).1) ∧ -1 ∉ asg.
Proof.
  cbv zeta.
  destruct (reachable_wf maxd maxdis frames) as (Hwf & _ & _).
  set (t := (updates _ frames).1) in *.
  pose proof (update_spec _ _ _ _ Hwf (update_pair t dets)) as Hp.
  assert (∀ a, a ∈ (update t dets).2 → 0 ≤ a < next_id (update t dets).1)
    as Hrange.
  { intros a Ha.
    destruct (update_assigned _ _ _ _ a Hwf (update_pair t dets) Ha)
      as [Hin|Hnew].
    - apply (wf_active _ Hwf) in Hin. pose proof (up_next _ _ _ _ Hp). lia.
    - pose proof (wf_next _ Hwf). lia. }
  split_and!.
  - apply (up_len _ _ _ _ Hp).
  - apply (up_asg_nodup _ _ _ _ Hp).
  - done.
  - intros Hin%Hrange. lia.
Qed.

(** X3. After [update], looking an assigned id up in the returned dict gives
    the centroid of the detection it was assigned to; an identity that stays
    tracked without being assigned keeps the centroid it had. *)
Theorem update_positions (maxd maxdis : Z)
    (frames : list (list point)) (dets : list point) :
  let t := (updates (CentroidTracker_init maxd maxdis) frames).1 in
  let t' := (update t dets).1 in
  let asg := (update t dets).2 in
  (∀ (i : nat) a c, asg !! i = Some a → dets !! i = Some c →
                    dict_get (objects t') a = Some c) ∧
  (∀ k, k ∈ active_ids t' → k ∉ asg →
        k ∈ active_ids t ∧ dict_get (objects t') k = dict_get (objects t) k).
Proof.
  cbv zeta.
  destruct (reachable_wf maxd maxdis frames) as (Hwf & _ & _).
  set (t := (updates _ frames).1) in *.
  pose proof (update_spec _ _ _ _ Hwf (update_pair t dets)) as Hp.
  pose proof (update_objects_eq t dets Hwf) as Heq.
  split.
  - intros i a c Ha Hc. apply dict_get_elem; [apply (up_nodup _ _ _ _ Hp)|].
    rewrite Heq. apply elem_of_app. left.
    apply list_elem_of_lookup. exists i.
    apply lookup_zip_with_Some. by exists a, c.
  - intros k Hk Hout.
    unfold active_ids, dict_keys in Hk.
    apply list_elem_of_fmap in Hk as ([k' p] & -> & Hin). simpl in *.
    pose proof Hin as Hin'. rewrite Heq in Hin'.
    apply elem_of_app in Hin' as [Hz|Hf].
    + exfalso. apply Hout. by apply elem_of_zip_l in Hz.
    + apply list_elem_of_filter in Hf as [_ Hold].
      split.
      * unfold active_ids, dict_keys. apply list_elem_of_fmap.
        by exists (k', p).
      * rewrite (dict_get_elem (objects (update t dets).1) k' p);
          [|apply (up_nodup _ _ _ _ Hp)|done].
        symmetry. apply dict_get_elem; [apply (wf_nodup _ Hwf)|done].
Qed.

(** X4. For detections with coordinates in range, on every call so far and
    on this one: a detection is given an already tracked id only when it
    lies strictly within [max_distance] of that identity's stored centroid;
    it is given a fresh id only when no identity left unclaimed by the
    earlier detections is that close. *)
Theorem match_only_within_range (maxd maxdis : Z)
    (frames : list (list point)) (dets : list point)
    (Hframes : frames_in_range frames = true)
    (Hdets : forallb in_pixel_range dets = true) :
  let t := (updates (CentroidTracker_init maxd maxdis) frames).1 in
  let asg := (update t dets).2 in
  ∀ (i : nat) a c, asg !! i = Some a → dets !! i = Some c →
    (a ∈ active_ids t →
     ∃ p, dict_get (objects t) a = Some p ∧
          0 < maxd ∧ dist2 c p < maxd * maxd) ∧
    (a ∉ active_ids t →
     ∀ id' p', (id', p') ∈ objects t → id' ∉ take i asg →
               ¬ (0 < maxd ∧ dist2 c p' < maxd * maxd)).
Proof.
  cbv zeta.
  destruct (reachable_wf maxd maxdis frames) as (Hwf & _ & _).
  pose proof (updates_max_distance (CentroidTracker_init maxd maxdis) frames
                (ids_wf_init maxd maxdis)) as Hmaxd.
  simpl in Hmaxd.
  set (t := (updates _ frames).1) in *.
  intros i a c Ha Hc.
  pose proof (update_assignments t dets i c Hwf Hc) as Hch.
  rewrite Ha, Hmaxd in Hch. injection Hch as Hch.
  unfold greedy_choice in Hch.
  pose proof (scan_objects_spec (objects t)
                (list_to_set (take i (update t dets).2)) c maxd) as Hscan.
  destruct (scan_objects _ _ _ _ _ _) as [best|].
  - subst a. destruct Hscan as (j & p & Hj & _ & Hmax & _).
    assert ((best, p) ∈ objects t) as Hin
        by (by eapply list_elem_of_lookup_2).
    split.
    + intros _. exists p. split.
      * apply dict_get_elem; [apply (wf_nodup _ Hwf)|done].
      * unfold lt_max in Hmax.
        apply andb_true_iff in Hmax as [H0%Z.ltb_lt Hd%Z.ltb_lt]. done.
    + intros Hout. exfalso. apply Hout.
      unfold active_ids, dict_keys. apply list_elem_of_fmap.
      by exists (best, p).
  - split.
    + intros Hin%(wf_active _ Hwf). lia.
    + intros _ id' p' Hin Hfree [H0 Hd].
      assert (lt_max (dist2 c p') maxd = true) as Ht.
      { unfold lt_max. apply andb_true_iff. split; by apply Z.ltb_lt. }
      rewrite (Hscan id' p' Hin) in Ht; [done|].
      by rewrite elem_of_list_to_set.
Qed.

Lemma match_only_within_range_witness :
  let t := (updates (CentroidTracker_init 50 10) [[(10, 10)]]).1 in
  frames_in_range [[(10, 10)]] = true ∧
  forallb in_pixel_range [(15, 12)] = true ∧
  (update t [(15, 12)]).2 !! 0%nat = Some 0 ∧
  [(15, 12)] !! 0%nat = Some (15, 12) ∧
  (0 ∈ active_ids t →
   ∃ p, dict_get (objects t) 0 = Some p ∧
        0 < 50 ∧ dist2 (15, 12) p < 50 * 50).
Proof.
  cbv zeta. split; [reflexivity|]. split; [reflexivity|].
  split; [by vm_compute|]. split; [reflexivity|].
  refine (proj1 (match_only_within_range 50 10 [[(10, 10)]] [(15, 12)]
                   _ _ 0%nat 0 (15, 12) _ _)).
  - reflexivity.
  - reflexivity.
  - by vm_compute.
  - reflexivity.
Defined.

Lemma all_fresh_assignments t dets :
  ids_wf t →
  (∀ a, a ∈ (update t dets).2 → a ∉ active_ids t) →
  (update t dets).2 = seqZ (next_id t) (Z.of_nat (length dets)) ∧
  next_id (update t dets).1 = next_id t + Z.of_nat (length dets).
Proof.
  intros Hwf Hfresh.
  pose proof (update_spec _ _ _ _ Hwf (update_pair t dets)) as Hp.
  pose proof (up_new _ _ _ _ Hp) as Hnew.
  rewrite filter_all in Hnew by done.
  pose proof (f_equal length Hnew) as Hlen.
  rewrite length_seqZ, (up_len _ _ _ _ Hp) in Hlen.
  pose proof (up_next _ _ _ _ Hp).
  assert (next_id (update t dets).1 - next_id t = Z.of_nat (length dets))
    as Hd by lia.
  rewrite Hd in Hnew. split; [done|lia].
Qed.

(** X5. While nothing is tracked (a new tracker, or one whose identities
    have all expired) every detection of a call becomes a new identity: the
    ids handed out are [next_id], [next_id + 1], ... in detection order, the
    returned dict pairs them with the detections, and each starts with
    counter 0. *)
Theorem empty_tracker_registers_all (maxd maxdis : Z)
    (frames : list (list point)) (dets : list point)
    (Hempty : objects (updates (CentroidTracker_init maxd maxdis) frames).1
              = []) :
  let t := (updates (CentroidTracker_init maxd maxdis) frames).1 in
  let t' := (update t dets).1 in
  let asg := (update t dets).2 in
  asg = seqZ (next_id t) (Z.of_nat (length dets)) ∧
  next_id t' = next_id t + Z.of_nat (length dets) ∧
  objects t' = zip asg dets ∧
  (∀ a, a ∈ asg → disappeared t' !! a = Some 0).
Proof.
  cbv zeta.
  destruct (reachable_wf maxd maxdis frames) as (Hwf & _ & _).
  set (t := (updates _ frames).1) in *.
  pose proof (update_spec _ _ _ _ Hwf (update_pair t dets)) as Hp.
  destruct (all_fresh_assignments t dets Hwf) as [Hasg Hnext].
  { intros a _. unfold active_ids. rewrite Hempty. apply not_elem_of_nil. }
  split_and!; [done|done| |].
  - rewrite (update_objects_eq t dets Hwf), Hempty.
    by rewrite filter_nil, app_nil_r.
  - intros a Ha. by rewrite (up_dis _ _ _ _ Hp), decide_True.
Qed.

Lemma empty_tracker_registers_all_witness :
  objects (updates (CentroidTracker_init 70 12) []).1 = [] ∧
  (update (updates (CentroidTracker_init 70 12) []).1
          [(1, 2); (3, 4)]).2
  = seqZ (next_id (updates (CentroidTracker_init 70 12) []).1)
         (Z.of_nat (length [(1, 2); (3, 4)])).
Proof.
  split; [reflexivity|].
  refine (proj1 (empty_tracker_registers_all 70 12 [] [(1, 2); (3, 4)] _)).
  reflexivity.
Defined.

(** X6. With a [max_distance] of zero or less no detection ever matches:
    whatever is tracked, every detection of every call is given a fresh
    id. *)
Theorem nonpositive_max_distance_never_matches (maxd maxdis : Z)
    (frames : list (list point)) (dets : list point)
    (Hmaxd : maxd ≤ 0) :
  let t := (updates (CentroidTracker_init maxd maxdis) frames).1 in
  (update t dets).2 = seqZ (next_id t) (Z.of_nat (length dets)) ∧
  next_id (update t dets).1 = next_id t + Z.of_nat (length dets).
Proof.
  cbv zeta.
  destruct (reachable_wf maxd maxdis frames) as (Hwf & _ & _).
  pose proof (updates_max_distance (CentroidTracker_init maxd maxdis) frames
                (ids_wf_init maxd maxdis)) as Hm.
  simpl in Hm.
  set (t := (updates _ frames).1) in *.
  apply all_fresh_assignments; [done|].
  intros a [i Ha]%list_elem_of_lookup.
  pose proof (update_spec _ _ _ _ Hwf (update_pair t dets)) as Hp.
  destruct (lookup_lt_is_Some_2 dets i) as [c Hc].
  { rewrite <- (up_len _ _ _ _ Hp). by eapply lookup_lt_Some. }
  pose proof (update_assignments t dets i c Hwf Hc) as Hch.
  rewrite Ha, Hm in Hch. injection Hch as Hch.
  unfold greedy_choice in Hch.
  pose proof (scan_objects_spec (objects t)
                (list_to_set (take i (update t dets).2)) c maxd) as Hscan.
  destruct (scan_objects _ _ _ _ _ _) as [best|].
  - destruct Hscan as (j & p & _ & _ & Hmax & _).
    unfold lt_max in Hmax.
    apply andb_true_iff in Hmax as [H0%Z.ltb_lt _]. lia.
  - intros Hin%(wf_active _ Hwf). lia.
Qed.

Lemma nonpositive_max_distance_never_matches_witness :
  0 ≤ 0 ∧
  (update (updates (CentroidTracker_init 0 12) [[(5, 5)]]).1 [(5, 5)]).2
  = seqZ (next_id (updates (CentroidTracker_init 0 12) [[(5, 5)]]).1)
         (Z.of_nat (length [(5, 5)])).
Proof.
  split; [lia|].
  refine (proj1 (nonpositive_max_distance_never_matches
                   0 12 [[(5, 5)]] [(5, 5)] _)). lia.
Defined.

(** X7. On a tracker with a non-negative budget every [disappeared] counter
    lies between 0 and [max_disappeared + 1]; the number of tracked
    identities never exceeds the number of ids allocated, and after a call
    it is at most the number of detections plus the number tracked
    before. *)
Theorem tracker_bounds (maxd maxdis : Z)
    (frames : list (list point)) (dets : list point)
    (Hbudget : 0 ≤ maxdis) :
  let t := (updates (CentroidTracker_init maxd maxdis) frames).1 in
  (∀ k d, disappeared t !! k = Some d → 0 ≤ d ≤ maxdis + 1) ∧
  Z.of_nat (length (active_ids t)) ≤ next_id t ∧
  (length (active_ids (update t dets).1)
   ≤ length dets + length (active_ids t))%nat.
Proof.
  cbv zeta.
  destruct (reachable_wf maxd maxdis frames) as (Hwf & Hmax & Hc).
  specialize (Hc Hbudget).
  set (t := (updates _ frames).1) in *.
  split_and!.
  - intros k d Hd. specialize (Hc k d Hd). rewrite Hmax in Hc.
    destruct (decide (k ∈ active_ids t)); lia.
  - assert (length (active_ids t) ≤ length (seqZ 0 (next_id t)))%nat as Hle.
    { apply submseteq_length, NoDup_submseteq; [apply (wf_nodup _ Hwf)|].
      intros k Hk%(wf_active _ Hwf). apply elem_of_seqZ. lia. }
    rewrite length_seqZ in Hle. pose proof (wf_next _ Hwf). lia.
  - unfold active_ids, dict_keys.
    rewrite (update_objects_eq t dets Hwf).
    rewrite length_fmap, length_app, length_zip, (length_fmap _ (objects t)).
    pose proof (length_filter
      (λ e : Z * point, (e.1 ∉ (update t dets).2) ∧
         default 0 (disappeared t !! e.1) + 1 ≤ max_disappeared t)
      (objects t)).
    lia.
Qed.

Lemma tracker_bounds_witness :
  0 ≤ 12 ∧
  Z.of_nat (length (active_ids
                      (updates (CentroidTracker_init 70 12) [[(1, 1)]]).1))
  ≤ next_id (updates (CentroidTracker_init 70 12) [[(1, 1)]]).1.
Proof.
  split; [lia|].
  refine (proj1 (proj2 (tracker_bounds 70 12 [[(1, 1)]] [] _))). lia.
Defined.

(** X8. A tracker that follows a single identity keeps its id: for
    detections with coordinates in range, when exactly one identity is
    tracked and the only detection lies strictly within [max_distance] of
    it, the detection is given that id and the dict holds the identity at
    the detection's position. *)
Theorem single_identity_followed (maxd maxdis : Z)
    (frames : list (list point)) (k : Z) (p c : point)
    (Hframes : frames_in_range frames = true)
    (Hc : in_pixel_range c = true)
    (Hone : objects (updates (CentroidTracker_init maxd maxdis) frames).1
            = [(k, p)])
    (Hnear : 0 < maxd ∧ dist2 c p < maxd * maxd) :
  let t := (updates (CentroidTracker_init maxd maxdis) frames).1 in
  (update t [c]).2 = [k] ∧
  objects (update t [c]).1 = [(k, c)] ∧
  next_id (update t [c]).1 = next_id t.
Proof.
  cbv zeta.
  destruct (reachable_wf maxd maxdis frames) as (Hwf & _ & _).
  pose proof (updates_max_distance (CentroidTracker_init maxd maxdis) frames
                (ids_wf_init maxd maxdis)) as Hm.
  simpl in Hm.
  set (t := (updates _ frames).1) in *.
  pose proof (update_spec _ _ _ _ Hwf (update_pair t [c])) as Hp.
  pose proof (update_assignments t [c] 0 c Hwf eq_refl) as Hch.
  rewrite Hone, Hm in Hch. unfold greedy_choice in Hch.
  destruct p as [ox oy]. cbn [scan_objects take] in Hch.
  rewrite decide_False in Hch by set_solver.
  change (hypot2 (c.1 - ox) (c.2 - oy)) with (dist2 c (ox, oy)) in Hch.
  assert (lt_max (dist2 c (ox, oy)) maxd = true) as Hlt.
  { unfold lt_max. apply andb_true_iff. split; apply Z.ltb_lt; tauto. }
  rewrite Hlt in Hch. simpl in Hch.
  assert ((update t [c]).2 = [k]) as Hasg.
  { pose proof (up_len _ _ _ _ Hp) as Hl.
    destruct (update t [c]).2 as [|a [|b rest]]; simpl in *; try done.
    by injection Hch as ->. }
  split_and!.
  - done.
  - rewrite (update_objects_eq t [c] Hwf), Hasg, Hone. simpl.
    rewrite filter_cons_False; [done|]. simpl. intros [Hk _].
    apply Hk, list_elem_of_here.
  - pose proof (up_new _ _ _ _ Hp) as Hnew. rewrite Hasg in Hnew.
    unfold active_ids in Hnew. rewrite Hone in Hnew.
    rewrite filter_cons_False in Hnew
      by (intros Hk; apply Hk, list_elem_of_here).
    rewrite filter_nil in Hnew.
    apply (f_equal length) in Hnew. rewrite length_seqZ in Hnew.
    simpl in Hnew. pose proof (up_next _ _ _ _ Hp). lia.
Qed.

Lemma single_identity_followed_witness :
  frames_in_range [[(10, 10)]] = true ∧
  in_pixel_range (15, 12) = true ∧
  objects (updates (CentroidTracker_init 50 10) [[(10, 10)]]).1
  = [(0, (10, 10))] ∧
  (0 < 50 ∧ dist2 (15, 12) (10, 10) < 50 * 50) ∧
  (update (updates (CentroidTracker_init 50 10) [[(10, 10)]]).1
          [(15, 12)]).2 = [0].
Proof.
  split; [reflexivity|]. split; [reflexivity|].
  split; [reflexivity|]. split; [by vm_compute|].
  refine (proj1 (single_identity_followed 50 10 [[(10, 10)]] 0 (10, 10)
                   (15, 12) _ _ _ _)).
  - reflexivity.
  - reflexivity.
  - reflexivity.
  - by vm_compute.
Defined.

(** * Further properties of the frame loop *)

Lemma lookup_cleanup pc active k :
  last_seen (_cleanup_stale_ids pc active) !! k =
    match last_seen pc !! k with
    | Some v => if decide ((k ∉ active) ∧ 90 < frame_index pc - v)
                then None else Some v
    | None => None
    end.
Proof.
  unfold _cleanup_stale_ids. simpl. rewrite lookup_foldl_delete.
  destruct (decide (k ∈ stale_ids pc active)) as [Hin|Hout].
  - apply elem_of_stale_ids in Hin as (v & -> & Hout & Hold).
    by rewrite decide_True.
  - destruct (last_seen pc !! k) as [v|] eqn:Hv; [|done].
    rewrite decide_False; [done|]. intros [Hk Hold]. apply Hout.
    apply elem_of_stale_ids. by exists v.
Qed.

Lemma lookup_stamp_seen (fi : Z) (labelled : list (Box * Z)) :
  ∀ (m : gmap Z Z) k,
  stamp_seen fi m labelled !! k =
    if decide (k ∈ labelled.*2 ∧ k ≠ -1) then Some fi else m !! k.
Proof.
  unfold stamp_seen.
  induction labelled as [|[b id] rest IH]; intros m k; simpl.
  - done.
  - rewrite IH. destruct (decide (k ∈ rest.*2 ∧ k ≠ -1)) as [[Hin Hne]|Hno].
    + rewrite decide_True; [done|]. split; [by apply list_elem_of_further|done].
    + destruct (decide (id = -1)) as [->|Hid].
      * rewrite decide_False; [done|]. rewrite elem_of_cons.
        intros [[->|?] ?]; [done|tauto].
      * destruct (decide (k = id)) as [->|Hne].
        -- rewrite lookup_insert_eq, decide_True; [done|].
           split; [apply list_elem_of_here|done].
        -- rewrite lookup_insert_ne by done.
           rewrite decide_False; [done|]. rewrite elem_of_cons. tauto.
Qed.

(** The two ways through one iteration, with every intermediate value of
    lines 146-208 named. *)
Lemma loop_body_cases pc db f :
  let pc1 := set_frame_index (frame_index pc + 1) pc in
  ((frame_index pc + 1) mod skip_frames pc ≠ 0 ∧
   loop_body pc db f = (pc1, db, Skipped)) ∨
  ((frame_index pc + 1) mod skip_frames pc = 0 ∧
   let boxes := kept_boxes pc f in
   let trk := (update (tracker pc) (centroid <$> boxes)).1 in
   let asg := (update (tracker pc) (centroid <$> boxes)).2 in
   let active : gset Z := list_to_set (active_ids trk) in
   let pc3 := _cleanup_stale_ids (set_tracker trk pc1) active in
   let r := aggregate (Z.of_nat (size active)) pc3 db in
   loop_body pc db f =
     if r.2 then
       (set_last_seen
          (stamp_seen (frame_index r.1.1) (last_seen r.1.1) (zip boxes asg))
          r.1.1,
        r.1.2,
        if f_encodes f
        then Yielded (mkOutput
                        (List.filter (λ bi, negb (bi.2 =? -1)) (zip boxes asg))
                        (lobby_count r.1.1))
        else NotEncoded)
     else (r.1.1, r.1.2, Raised)).
Proof.
  cbv zeta. unfold loop_body. simpl.
  destruct (decide ((frame_index pc + 1) mod skip_frames pc ≠ 0))
    as [Hne|Heq].
  - by left.
  - right. split; [by destruct (decide ((frame_index pc + 1)
                                          mod skip_frames pc = 0)); [|tauto]|].
    unfold active_ids.
    destruct (update _ _) as [trk asg]. simpl.
    destruct (aggregate _ _ _) as [[pc4 db4] ok]. simpl.
    destruct ok; [|done]. by destruct (f_encodes f).
Qed.

Lemma aggregate_cases a pc db :
  (a = lobby_count pc ∧ aggregate a pc db = (pc, db, true)) ∨
  (a ≠ lobby_count pc ∧
   aggregate a pc db
   = (set_lobby_count a pc,
      (sink_append db (mkEvent "PRESENT" a)).1,
      (sink_append db (mkEvent "PRESENT" a)).2)).
Proof.
  unfold aggregate, _log_event.
  destruct (decide (a ≠ lobby_count pc)) as [Hne|Heq].
  - right. split; [done|]. simpl. by destruct (sink_append _ _).
  - left. split; [|done]. destruct (decide (a = lobby_count pc)); [done|tauto].
Qed.

Lemma size_active_ids t :
  ids_wf t →
  size (list_to_set (active_ids t) : gset Z) = length (active_ids t).
Proof. intros Hwf. apply size_list_to_set, (wf_nodup _ Hwf). Qed.

Lemma loop_body_inv pc db f :
  pipeline_inv pc → pipeline_inv (loop_body pc db f).1.1.
Proof.
  intros [Hs Hi Ht Hl Hseen].
  destruct (loop_body_cases pc db f) as [[_ ->]|[_ Hrun]].
  - simpl. split; simpl; try done; [lia|].
    intros k v Hkv. destruct (Hseen k v Hkv). lia.
  - cbv zeta in Hrun.
    set (boxes := kept_boxes pc f) in *.
    pose proof (update_pair (tracker pc) (centroid <$> boxes)) as Hu.
    set (trk := (update (tracker pc) (centroid <$> boxes)).1) in *.
    set (asg := (update (tracker pc) (centroid <$> boxes)).2) in *.
    pose proof (update_ids_wf _ _ _ _ Ht Hu) as Ht'.
    pose proof (update_spec _ _ _ _ Ht Hu) as Hp.
    set (active := list_to_set (active_ids trk) : gset Z) in *.
    set (pc3 := _cleanup_stale_ids _ active) in *.
    assert (∀ k v, last_seen pc3 !! k = Some v →
                   0 ≤ k < next_id trk ∧ 1 ≤ v ≤ frame_index pc + 1)
      as Hseen3.
    { intros k v. unfold pc3. rewrite lookup_cleanup. simpl.
      destruct (last_seen pc !! k) as [v0|] eqn:Hk; [|done].
      case_decide; [done|]. intros [= <-].
      destruct (Hseen k v0 Hk). pose proof (up_next _ _ _ _ Hp). lia. }
    set (a := Z.of_nat (size active)) in *.
    assert (a = Z.of_nat (length (active_ids trk))) as Ha
        by (unfold a, active; by rewrite size_active_ids).
    assert (∃ pc4, (aggregate a pc3 db).1.1 = pc4 ∧
                   pc4 = set_lobby_count a pc3) as (pc4 & Hagg & Hpc4).
    { destruct (aggregate_cases a pc3 db) as [[Heq ->]|[_ ->]]; simpl.
      - exists pc3. split; [done|]. rewrite Heq. by destruct pc3.
      - by eexists. }
    rewrite Hagg in Hrun.
    assert (pipeline_inv pc4) as Hinv4.
    { rewrite Hpc4. split; simpl.
      - done.
      - lia.
      - done.
      - done.
      - apply Hseen3. }
    destruct (aggregate a pc3 db).2; rewrite Hrun; simpl; [|done].
    destruct Hinv4 as [Hs4 Hi4 Ht4 Hl4 Hseen4].
    split; simpl; try done.
    intros k v. rewrite lookup_stamp_seen.
    destruct (decide (k ∈ (zip boxes asg).*2 ∧ k ≠ -1)) as [[Hin _]|_];
      [|apply Hseen4].
    intros [= <-]. rewrite Hpc4. simpl.
    assert (k ∈ asg) as Hk.
    { apply list_elem_of_fmap in Hin as ([b k'] & -> & Hin).
      by apply elem_of_zip_r in Hin. }
    destruct (update_assigned _ _ _ _ k Ht Hu Hk) as [Hact|Hnew].
    + apply (wf_active _ Ht) in Hact. pose proof (up_next _ _ _ _ Hp). lia.
    + pose proof (wf_next _ Ht). lia.
Qed.

Lemma generate_frames_step pc db f rest :
  generate_frames pc db (f :: rest) =
    match (loop_body pc db f).2 with
    | Raised => mkRun (loop_body pc db f).1.1 (loop_body pc db f).1.2
                      [] true rest
    | Yielded o =>
        let r := generate_frames (loop_body pc db f).1.1
                                 (loop_body pc db f).1.2 rest in
        mkRun (r_counter r) (r_sink r) (o :: r_yielded r)
              (r_raised r) (r_unread r)
    | _ => generate_frames (loop_body pc db f).1.1
                           (loop_body pc db f).1.2 rest
    end.
Proof.
  cbn [generate_frames].
  by destruct (loop_body pc db f) as [[pc' db'] []].
Qed.

Lemma generate_frames_inv cap :
  ∀ pc db, pipeline_inv pc → pipeline_inv (r_counter (generate_frames pc db cap)).
Proof.
  induction cap as [|f rest IH]; intros pc db Hinv; [done|].
  rewrite generate_frames_step.
  pose proof (loop_body_inv pc db f Hinv) as Hinv'.
  destruct (loop_body pc db f).2; simpl; auto.
Qed.

Lemma pipeline_inv_init conf n : pipeline_inv (PeopleCounter_init conf n).
Proof.
  split; simpl; try done.
  - lia.
  - apply ids_wf_init.
Qed.

(** ** Invariants of a run *)

(** X9. Through any run of the frame loop started from a new
    [PeopleCounter], whatever the camera delivers and whether or not an
    append fails, the recorded [lobby_count] is the number of identities
    the tracker holds. *)
Theorem lobby_count_is_tracked_count (conf : Q) (n : Z) (db : EventSink)
    (cap : list Frame) :
  let pc := r_counter (generate_frames (PeopleCounter_init conf n) db cap) in
  lobby_count pc = Z.of_nat (length (active_ids (tracker pc))) ∧
  0 ≤ lobby_count pc ≤ next_id (tracker pc).
Proof.
  cbv zeta.
  pose proof (generate_frames_inv cap _ db (pipeline_inv_init conf n)) as Hinv.
  set (pc := r_counter _) in *.
  split; [apply (pi_lobby _ Hinv)|].
  rewrite (pi_lobby _ Hinv).
  pose proof (pi_tracker _ Hinv) as Hwf.
  assert (length (active_ids (tracker pc))
          ≤ length (seqZ 0 (next_id (tracker pc))))%nat as Hle.
  { apply submseteq_length, NoDup_submseteq; [apply (wf_nodup _ Hwf)|].
    intros k Hk%(wf_active _ Hwf). apply elem_of_seqZ. lia. }
  rewrite length_seqZ in Hle. pose proof (wf_next _ Hwf). lia.
Qed.

(** X10. Through any run started from a new [PeopleCounter], every entry of
    [last_seen] belongs to an id the tracker has allocated and carries the
    index of a frame already read, between 1 and the current
    [frame_index]; so the age computed by the cleanup is never negative. *)
Theorem last_seen_within_bounds (conf : Q) (n : Z) (db : EventSink)
    (cap : list Frame) :
  let pc := r_counter (generate_frames (PeopleCounter_init conf n) db cap) in
  ∀ k v, last_seen pc !! k = Some v →
         0 ≤ k < next_id (tracker pc) ∧ 1 ≤ v ≤ frame_index pc ∧
         0 ≤ frame_index pc - v.
Proof.
  cbv zeta.
  pose proof (generate_frames_inv cap _ db (pipeline_inv_init conf n)) as Hinv.
  intros k v Hkv. destruct (pi_seen _ Hinv k v Hkv). lia.
Qed.

Lemma last_seen_within_bounds_witness :
  let pc := r_counter (generate_frames
                         (PeopleCounter_init (1 # 2) 1) (mkSink [] [])
                         [mkFrame [[mkBox 0 0 20 20 (9 # 10)]] true]) in
  last_seen pc !! 0 = Some 1 ∧
  (0 ≤ 0 < next_id (tracker pc) ∧ 1 ≤ 1 ≤ frame_index pc ∧
   0 ≤ frame_index pc - 1).
Proof.
  cbv zeta. split; [by vm_compute|].
  refine (last_seen_within_bounds (1 # 2) 1 (mkSink [] [])
            [mkFrame [[mkBox 0 0 20 20 (9 # 10)]] true] 0 1 _).
  by vm_compute.
Defined.

(** ** Reading frames *)

Lemma loop_body_frame_index pc db f :
  frame_index (loop_body pc db f).1.1 = frame_index pc + 1.
Proof.
  destruct (decide ((frame_index pc + 1) mod skip_frames pc = 0))
    as [Hmod|Hmod].
  - by destruct (loop_body_processed pc db f Hmod) as (_ & _ & _ & _ & ? & _).
  - destruct (loop_body_cases pc db f) as [[_ ->]|[? _]]; done.
Qed.

Lemma loop_body_config pc db f :
  conf_threshold (loop_body pc db f).1.1 = conf_threshold pc ∧
  skip_frames (loop_body pc db f).1.1 = skip_frames pc.
Proof.
  destruct (loop_body_cases pc db f) as [[_ ->]|[_ Hrun]]; [done|].
  cbv zeta in Hrun. rewrite Hrun.
  set (a := Z.of_nat _). set (pc3 := _cleanup_stale_ids _ _).
  destruct (aggregate_cases a pc3 db) as [[_ ->]|[_ ->]]; simpl;
    by destruct (sink_append _ _).2 || done.
Qed.

Lemma run_structure cap :
  ∀ pc db,
  let r := generate_frames pc db cap in
  (length (r_unread r) ≤ length cap)%nat ∧
  frame_index (r_counter r)
  = frame_index pc + Z.of_nat (length cap - length (r_unread r)) ∧
  (length (r_yielded r) ≤ length cap - length (r_unread r))%nat ∧
  (r_raised r = false → r_unread r = []) ∧
  (r_raised r = true → (length (r_unread r) < length cap)%nat) ∧
  conf_threshold (r_counter r) = conf_threshold pc ∧
  skip_frames (r_counter r) = skip_frames pc.
Proof.
  induction cap as [|f rest IH]; intros pc db; cbv zeta.
  - simpl. split_and!; try done. lia.
  - rewrite generate_frames_step.
    pose proof (loop_body_frame_index pc db f) as Hfi.
    destruct (loop_body_config pc db f) as [Hc Hs].
    specialize (IH (loop_body pc db f).1.1 (loop_body pc db f).1.2).
    cbv zeta in IH. destruct IH as (H1 & H2 & H3 & H4 & H5 & H6 & H7).
    destruct (loop_body pc db f).2; simpl;
      (split_and!; [lia|lia|lia|done|lia|congruence|congruence]).
Qed.

(** X11. [generate_frames] advances [frame_index] by exactly the number of
    frames it read.  It stops either because the camera has no more frames,
    with nothing left unread, or because an append failed, in which case at
    least the failing frame was read; and it never yields more frames than
    it read. *)
Theorem frame_index_counts_frames_read (pc : PeopleCounter) (db : EventSink)
    (cap : list Frame) :
  let r := generate_frames pc db cap in
  let read := (length cap - length (r_unread r))%nat in
  frame_index (r_counter r) = frame_index pc + Z.of_nat read ∧
  (length (r_yielded r) ≤ read)%nat ∧
  (r_raised r = false → read = length cap) ∧
  (r_raised r = true → (1 ≤ read)%nat) ∧
  ∃ done_, cap = done_ ++ r_unread r.
Proof.
  cbv zeta.
  destruct (run_structure cap pc db) as (H1 & H2 & H3 & H4 & H5 & _).
  split_and!; try done.
  - intros Hr. rewrite (H4 Hr). simpl. lia.
  - intros Hr. specialize (H5 Hr). lia.
  - clear. revert pc db. induction cap as [|f rest IH]; intros pc db.
    + by exists [].
    + rewrite generate_frames_step.
      destruct (IH (loop_body pc db f).1.1 (loop_body pc db f).1.2)
        as [d Hd].
      destruct (loop_body pc db f).2; simpl;
        try (exists (f :: d); simpl; by f_equal).
      by exists [f].
Qed.

(** ** The event log *)

Lemma sink_append_cases db e :
  (sink_append db e).2 = true ∧
  events (sink_append db e).1 = events db ++ [e] ∨
  (sink_append db e).2 = false ∧
  events (sink_append db e).1 = events db.
Proof.
  unfold sink_append. destruct (outcomes db) as [|[] rest]; simpl; auto.
Qed.

Lemma loop_body_events pc db f :
  let pc' := (loop_body pc db f).1.1 in
  let db' := (loop_body pc db f).1.2 in
  (events db' = events db ∧
   ((loop_body pc db f).2 ≠ Raised → lobby_count pc' = lobby_count pc)) ∨
  (events db' = events db ++ [mkEvent "PRESENT" (lobby_count pc')] ∧
   lobby_count pc' ≠ lobby_count pc ∧ (loop_body pc db f).2 ≠ Raised).
Proof.
  cbv zeta.
  destruct (loop_body_cases pc db f) as [[_ ->]|[_ Hrun]]; [by left|].
  cbv zeta in Hrun. rewrite Hrun. clear Hrun.
  set (a := Z.of_nat _). set (pc3 := _cleanup_stale_ids _ _).
  assert (lobby_count pc3 = lobby_count pc) as Hl3 by done.
  destruct (aggregate_cases a pc3 db) as [[Heq ->]|[Hne ->]]; simpl.
  - left. by rewrite <- Hl3.
  - destruct (sink_append_cases db (mkEvent "PRESENT" a))
      as [[Hok Hev]|[Hok Hev]]; rewrite Hok; simpl; rewrite Hev.
    + right. split_and!; [done|congruence|by destruct (f_encodes f)].
    + left. split; [done|]. by intros H.
Qed.

Lemma run_events cap :
  ∀ pc db,
  let r := generate_frames pc db cap in
  ∃ new,
    events (r_sink r) = events db ++ new ∧
    Forall (λ e, direction e = "PRESENT") new ∧
    adjacent_distinct (lobby_count pc :: (ev_lobby_count <$> new)) ∧
    (r_raised r = false →
     last (lobby_count pc :: (ev_lobby_count <$> new))
     = Some (lobby_count (r_counter r))).
Proof.
  induction cap as [|f rest IH]; intros pc db; cbv zeta.
  - exists []. simpl. rewrite app_nil_r. split_and!; done.
  - rewrite generate_frames_step.
    specialize (IH (loop_body pc db f).1.1 (loop_body pc db f).1.2).
    cbv zeta in IH. destruct IH as (new & He & Hd & Ha & Hl).
    destruct (loop_body_events pc db f) as [[Hev Hlob]|(Hev & Hne & Hnr)].
    + destruct (loop_body pc db f).2 eqn:Hout; simpl.
      * exists new. rewrite He, Hev, <- Hlob by done. done.
      * exists []. rewrite Hev, app_nil_r. simpl. split_and!; done.
      * exists new. rewrite He, Hev, <- Hlob by done. done.
      * exists new. rewrite He, Hev, <- Hlob by done. done.
    + assert (∃ new', new' = mkEvent "PRESENT"
                (lobby_count (loop_body pc db f).1.1) :: new)
        as [new' Hnew'] by by eexists.
      assert (events (r_sink (generate_frames (loop_body pc db f).1.1
                                (loop_body pc db f).1.2 rest))
              = events db ++ new') as He'.
      { rewrite He, Hev, Hnew', <- app_assoc. done. }
      assert (Forall (λ e, direction e = "PRESENT") new') as Hd'.
      { rewrite Hnew'. by apply Forall_cons. }
      assert (adjacent_distinct (lobby_count pc :: (ev_lobby_count <$> new')))
        as Ha'.
      { rewrite Hnew'. simpl. split; [congruence|done]. }
      assert (last (lobby_count pc :: (ev_lobby_count <$> new'))
              = last (lobby_count (loop_body pc db f).1.1
                      :: (ev_lobby_count <$> new))) as Hlast.
      { rewrite Hnew', fmap_cons. apply last_cons_cons. }
      destruct (loop_body pc db f).2 eqn:Hout; simpl; [| done | |];
        (exists new'; split_and!; [done|done|done|by rewrite Hlast]).
Qed.

(** X12. The log is append-only under [generate_frames]: the events present
    before a run are a prefix of those after it.  Every event the run adds
    has direction "PRESENT"; the counts it adds, preceded by the count
    recorded at the start, never repeat from one to the next; and unless the
    run ended on a failed append, the last of them is the count recorded at
    the end. *)
Theorem run_appends_changes_only (pc : PeopleCounter) (db : EventSink)
    (cap : list Frame) :
  let r := generate_frames pc db cap in
  ∃ new,
    events (r_sink r) = events db ++ new ∧
    Forall (λ e, direction e = "PRESENT") new ∧
    adjacent_distinct (lobby_count pc :: (ev_lobby_count <$> new)) ∧
    (r_raised r = false →
     last (lobby_count pc :: (ev_lobby_count <$> new))
     = Some (lobby_count (r_counter r))).
Proof. apply run_events. Qed.

(** X13. If the in-memory count agrees with the log when a run starts and
    the run does not end on a failed append, then it agrees with the log
    when the run ends: [current_stats] returns the pipeline's own
    [lobby_count] and leaves the counter exactly as it was. *)
Theorem current_stats_in_sync_after_run (pc : PeopleCounter)
    (db : EventSink) (cap : list Frame)
    (Hsync : (current_stats pc db).2 = lobby_count pc)
    (Hclean : r_raised (generate_frames pc db cap) = false) :
  let r := generate_frames pc db cap in
  current_stats (r_counter r) (r_sink r)
  = (r_counter r, lobby_count (r_counter r)).
Proof.
  cbv zeta.
  destruct (run_events cap pc db) as (new & He & _ & _ & Hlast).
  cbv zeta in Hlast. specialize (Hlast Hclean).
  set (r := generate_frames pc db cap) in *.
  assert ((current_stats (r_counter r) (r_sink r)).2
          = lobby_count (r_counter r)) as Hval.
  { unfold current_stats, sink_latest in *. simpl in *. rewrite He.
    rewrite last_app. rewrite last_cons, fmap_last in Hlast.
    destruct (last new) as [e|]; simpl in *; [congruence|].
    injection Hlast as <-. done. }
  unfold current_stats in *. simpl in *. rewrite Hval.
  f_equal. by destruct (r_counter r).
Qed.

Lemma current_stats_in_sync_after_run_witness :
  let pc := PeopleCounter_init (1 # 2) 1 in
  let db := mkSink [] [] in
  let cap := [mkFrame [[mkBox 0 0 20 20 (9 # 10)]] true; mkFrame [] true] in
  (current_stats pc db).2 = lobby_count pc ∧
  r_raised (generate_frames pc db cap) = false ∧
  current_stats (r_counter (generate_frames pc db cap))
                (r_sink (generate_frames pc db cap))
  = (r_counter (generate_frames pc db cap),
     lobby_count (r_counter (generate_frames pc db cap))).
Proof.
  cbv zeta. split; [reflexivity|]. split; [by vm_compute|].
  refine (current_stats_in_sync_after_run
            (PeopleCounter_init (1 # 2) 1) (mkSink [] [])
            [mkFrame [[mkBox 0 0 20 20 (9 # 10)]] true; mkFrame [] true]
            _ _).
  - reflexivity.
  - by vm_compute.
Defined.

(** ** Stale-memory cleanup, continued *)

(** X14. [_cleanup_stale_ids] only ever removes entries: what it leaves is
    part of what it found, the entries of active ids are all kept, every
    entry left for an inactive id is at most 90 frames old, and running it
    again with the same active set changes nothing. *)
Theorem cleanup_stale_ids_idempotent (pc : PeopleCounter) (active : gset Z) :
  let pc' := _cleanup_stale_ids pc active in
  last_seen pc' ⊆ last_seen pc ∧
  (∀ k, k ∈ active → last_seen pc' !! k = last_seen pc !! k) ∧
  (∀ k v, last_seen pc' !! k = Some v →
          k ∈ active ∨ frame_index pc - v ≤ 90) ∧
  _cleanup_stale_ids pc' active = pc'.
Proof.
  cbv zeta. split_and!.
  - apply map_subseteq_spec. intros k v. rewrite lookup_cleanup.
    destruct (last_seen pc !! k); [|done]. by case_decide.
  - intros k Hk. rewrite lookup_cleanup.
    destruct (last_seen pc !! k); [|done].
    rewrite decide_False; [done|]. by intros [? _].
  - intros k v. rewrite lookup_cleanup.
    destruct (last_seen pc !! k) as [v0|]; [|done].
    destruct (decide ((k ∉ active) ∧ 90 < frame_index pc - v0))
      as [?|Hno]; [done|].
    intros [= <-]. destruct (decide (k ∈ active)); [by left|right].
    destruct (decide (frame_index pc - v0 ≤ 90)); [done|].
    exfalso. apply Hno. split; [done|lia].
  - assert (last_seen (_cleanup_stale_ids (_cleanup_stale_ids pc active) active)
            = last_seen (_cleanup_stale_ids pc active)) as Hls.
    { apply map_eq. intros k. rewrite (lookup_cleanup (_cleanup_stale_ids _ _)).
      rewrite lookup_cleanup. change (frame_index (_cleanup_stale_ids pc active))
        with (frame_index pc).
      destruct (last_seen pc !! k) as [v|]; [|done].
      destruct (decide ((k ∉ active) ∧ 90 < frame_index pc - v)) as [?|Hno];
        [done|]. by rewrite decide_False. }
    unfold _cleanup_stale_ids at 1. unfold set_last_seen.
    fold (stale_ids (_cleanup_stale_ids pc active) active).
    change (foldl _ _ _) with
      (last_seen (_cleanup_stale_ids (_cleanup_stale_ids pc active) active)).
    rewrite Hls. by destruct pc.
Qed.

(** ** What a yielded frame shows *)

Lemma List_filter_all {A : Type} (g : A → bool) (l : list A) :
  (∀ x, x ∈ l → g x = true) → List.filter g l = l.
Proof.
  induction l as [|x l IH]; intros Hall; [done|]. simpl.
  rewrite (Hall x) by apply list_elem_of_here.
  f_equal. apply IH. intros y Hy. by apply Hall, list_elem_of_further.
Qed.

Lemma yielded_frame pc db f pc' db' o :
  pipeline_inv pc →
  loop_body pc db f = (pc', db', Yielded o) →
  let boxes := kept_boxes pc f in
  let asg := (update (tracker pc) (centroid <$> boxes)).2 in
  tracker pc' = (update (tracker pc) (centroid <$> boxes)).1 ∧
  frame_index pc' = frame_index pc + 1 ∧
  o_labels o = zip boxes asg ∧
  length asg = length boxes ∧
  o_lobby o = lobby_count pc' ∧
  (∀ k, k ∈ asg → last_seen pc' !! k = Some (frame_index pc')).
Proof.
  intros Hinv Hy. cbv zeta.
  pose proof (loop_body_frame_index pc db f) as Hfi.
  destruct (loop_body_cases pc db f) as [[_ Hrun]|[_ Hrun]];
    [by rewrite Hrun in Hy|].
  cbv zeta in Hrun. rewrite Hy in Hfi. simpl in Hfi. rewrite Hrun in Hy.
  clear Hrun.
  set (boxes := kept_boxes pc f) in *.
  pose proof (update_pair (tracker pc) (centroid <$> boxes)) as Hu.
  pose proof (update_spec _ _ _ _ (pi_tracker _ Hinv) Hu) as Hp.
  set (trk := (update (tracker pc) (centroid <$> boxes)).1) in *.
  set (asg := (update (tracker pc) (centroid <$> boxes)).2) in *.
  set (a := Z.of_nat _) in *. set (pc3 := _cleanup_stale_ids _ _) in *.
  pose proof (aggregate_fields a pc3 db) as (Hf1 & Hf2 & _).
  destruct (aggregate a pc3 db) as [[pc4 db4] ok]. simpl in *.
  destruct ok; [|done]. destruct (f_encodes f); [|done].
  injection Hy as <- <- <-. simpl.
  assert (length asg = length boxes) as Hlen.
  { rewrite (up_len _ _ _ _ Hp). apply length_fmap. }
  assert (∀ k, k ∈ asg → k ≠ -1) as Hno.
  { intros k Hk ->.
    destruct (update_assigned _ _ _ _ (-1) (pi_tracker _ Hinv) Hu Hk)
      as [Hact|Hnew].
    - apply (wf_active _ (pi_tracker _ Hinv)) in Hact. lia.
    - pose proof (wf_next _ (pi_tracker _ Hinv)). lia. }
  split_and!; try done.
  - apply List_filter_all. intros [b k] Hin. simpl.
    apply elem_of_zip_r in Hin. apply Hno in Hin.
    apply negb_true_iff, Z.eqb_neq. done.
  - intros k Hk. rewrite lookup_stamp_seen.
    rewrite decide_True; [done|]. split; [|by apply Hno].
    rewrite snd_zip by lia. done.
Qed.

(** X15. When a frame is yielded by a pipeline started from a new
    [PeopleCounter], every box that passed the confidence filter is drawn,
    each with its own id (no id on two boxes); every id drawn is tracked
    and is stamped in [last_seen] with the current frame index; and the
    count overlay is the number of tracked identities. *)
Theorem yielded_frame_labels (conf : Q) (n : Z) (db0 : EventSink)
    (cap0 : list Frame) (db : EventSink) (f : Frame)
    (pc' : PeopleCounter) (db' : EventSink) (o : Output)
    (Hyield : loop_body
                (r_counter (generate_frames (PeopleCounter_init conf n)
                                            db0 cap0))
                db f
              = (pc', db', Yielded o)) :
  let pc := r_counter (generate_frames (PeopleCounter_init conf n) db0 cap0) in
  (o_labels o).*1 = kept_boxes pc f ∧
  NoDup (o_labels o).*2 ∧
  (∀ b id, (b, id) ∈ o_labels o →
           id ∈ active_ids (tracker pc') ∧
           last_seen pc' !! id = Some (frame_index pc')) ∧
  o_lobby o = Z.of_nat (length (active_ids (tracker pc'))).
Proof.
  cbv zeta.
  pose proof (generate_frames_inv cap0 _ db0 (pipeline_inv_init conf n))
    as Hinv.
  set (pc := r_counter _) in *.
  destruct (yielded_frame pc db f pc' db' o Hinv Hyield)
    as (Ht & Hfi & Hlab & Hlen & Hlob & Hseen).
  pose proof (update_pair (tracker pc) (centroid <$> kept_boxes pc f)) as Hu.
  pose proof (update_spec _ _ _ _ (pi_tracker _ Hinv) Hu) as Hp.
  pose proof (loop_body_inv pc db f Hinv) as Hinv'.
  rewrite Hyield in Hinv'. simpl in Hinv'.
  split_and!.
  - rewrite Hlab. apply fst_zip. lia.
  - rewrite Hlab, snd_zip by lia. apply (up_asg_nodup _ _ _ _ Hp).
  - intros b id Hin. rewrite Hlab in Hin. apply elem_of_zip_r in Hin.
    split; [|by apply Hseen].
    rewrite Ht. apply (up_active _ _ _ _ Hp). by left.
  - rewrite Hlob. apply (pi_lobby _ Hinv').
Qed.

Lemma yielded_frame_labels_witness :
  let f := mkFrame [[mkBox 0 0 20 20 (9 # 10)]] true in
  let pc := r_counter (generate_frames (PeopleCounter_init (1 # 2) 1)
                                       (mkSink [] []) []) in
  ∃ pc' db' o,
    loop_body pc (mkSink [] []) f = (pc', db', Yielded o) ∧
    (o_labels o).*1 = kept_boxes pc f.
Proof.
  cbv zeta.
  eexists _, _, _. split; [by vm_compute|].
  refine (proj1 (yielded_frame_labels (1 # 2) 1 (mkSink [] []) []
                   (mkSink [] []) (mkFrame [[mkBox 0 0 20 20 (9 # 10)]] true)
                   _ _ _ _)).
  by vm_compute.
Defined.

(** ** Stride *)

Lemma sink_append_reliable db e :
  outcomes db = [] →
  (sink_append db e).2 = true ∧ outcomes (sink_append db e).1 = [].
Proof. intros H. unfold sink_append. by rewrite H. Qed.

Lemma loop_body_reliable pc db f :
  outcomes db = [] →
  outcomes (loop_body pc db f).1.2 = [] ∧
  (loop_body pc db f).2 ≠ Raised ∧
  tracker (loop_body pc db f).1.1
  = if decide ((frame_index pc + 1) mod skip_frames pc ≠ 0)
    then tracker pc
    else (update (tracker pc) (centroid <$> kept_boxes pc f)).1.
Proof.
  intros Hrel.
  destruct (loop_body_cases pc db f) as [[Hne ->]|[Heq Hrun]].
  - simpl. by rewrite decide_True.
  - rewrite decide_False by (intros H; by apply H).
    cbv zeta in Hrun. rewrite Hrun. clear Hrun.
    set (a := Z.of_nat _). set (pc3 := _cleanup_stale_ids _ _).
    pose proof (aggregate_fields a pc3 db) as (_ & Ht & _).
    destruct (aggregate_cases a pc3 db) as [[_ Hag]|[_ Hag]];
      rewrite Hag in *; simpl in *.
    + split_and!; [done|by destruct (f_encodes f)|done].
    + destruct (sink_append_reliable db (mkEvent "PRESENT" a) Hrel)
        as [Hok Hout].
      rewrite Hok. simpl. split_and!; [done|by destruct (f_encodes f)|done].
Qed.

Lemma kept_boxes_conf pc pc0 f :
  conf_threshold pc = conf_threshold pc0 → kept_boxes pc f = kept_boxes pc0 f.
Proof. unfold kept_boxes. by intros ->. Qed.

Lemma run_reliable pc0 cap :
  ∀ pc db,
  outcomes db = [] →
  conf_threshold pc = conf_threshold pc0 →
  let r := generate_frames pc db cap in
  r_raised r = false ∧ outcomes (r_sink r) = [] ∧
  tracker (r_counter r)
  = (updates (tracker pc)
       ((λ f, centroid <$> kept_boxes pc0 f)
          <$> processed_frames (frame_index pc) (skip_frames pc) cap)).1.
Proof.
  induction cap as [|f rest IH]; intros pc db Hrel Hconf; cbv zeta.
  - done.
  - rewrite generate_frames_step.
    destruct (loop_body_reliable pc db f Hrel) as (Hrel' & Hnr & Htr).
    destruct (loop_body_config pc db f) as [Hc Hs].
    pose proof (loop_body_frame_index pc db f) as Hfi.
    specialize (IH (loop_body pc db f).1.1 (loop_body pc db f).1.2 Hrel').
    cbv zeta in IH. rewrite Hfi, Hs, Htr in IH.
    destruct IH as (H1 & H2 & H3); [congruence|].
    assert (tracker (r_counter (generate_frames (loop_body pc db f).1.1
                                  (loop_body pc db f).1.2 rest))
            = (updates (tracker pc)
                 ((λ f, centroid <$> kept_boxes pc0 f)
                    <$> processed_frames (frame_index pc) (skip_frames pc)
                          (f :: rest))).1) as Hgoal.
    { rewrite H3. cbn [processed_frames].
      destruct (decide ((frame_index pc + 1) mod skip_frames pc ≠ 0));
        [done|].
      rewrite fmap_cons, updates_cons. simpl.
      by rewrite (kept_boxes_conf pc pc0 f Hconf). }
    destruct (loop_body pc db f).2; simpl; try done.
Qed.

Lemma processed_frames_length N cap :
  1 ≤ N →
  ∀ idx, 0 ≤ idx →
  Z.of_nat (length (processed_frames idx N cap))
  = (idx + Z.of_nat (length cap)) / N - idx / N.
Proof.
  intros HN. induction cap as [|f rest IH]; intros idx Hidx.
  - simpl. rewrite Z.add_0_r. lia.
  - cbn [processed_frames length].
    pose proof (Z.div_mod idx N ltac:(lia)) as Hdm.
    pose proof (Z.mod_pos_bound idx N ltac:(lia)) as Hb.
    pose proof (Z.div_mod (idx + 1) N ltac:(lia)) as Hdm1.
    pose proof (Z.mod_pos_bound (idx + 1) N ltac:(lia)) as Hb1.
    replace (idx + Z.of_nat (S (length rest)))
      with (idx + 1 + Z.of_nat (length rest)) by lia.
    destruct (decide ((idx + 1) mod N ≠ 0)) as [Hne|Heq].
    + rewrite IH by lia.
      assert ((idx + 1) / N = idx / N) as ->; [|done].
      apply (Z.div_unique idx N _ ((idx + 1) mod N - 1)); lia.
    + assert ((idx + 1) mod N = 0) as Hz
          by (destruct (decide ((idx + 1) mod N = 0)); [done|tauto]).
      cbn [length]. rewrite Nat2Z.inj_succ, IH by lia.
      assert ((idx + 1) / N - 1 = idx / N) as <-; [|lia].
      apply (Z.div_unique idx N _ (N - 1)); lia.
Qed.

(** X16. With a sink that never fails, a pipeline started from a new
    [PeopleCounter] with configured stride [n] never raises, and its tracker
    is the tracker that was fed, one [update] each and in order, the
    filtered centroids of exactly the frames whose 1-based position is a
    multiple of [max(1, n)]: their number is the number of frames read
    divided by [max(1, n)], rounded down, and a configured stride of 1 or
    less feeds it every frame. *)
Theorem tracker_sees_every_nth_frame (conf : Q) (n : Z) (db : EventSink)
    (cap : list Frame)
    (Hreliable : outcomes db = []) :
  let pc0 := PeopleCounter_init conf n in
  let r := generate_frames pc0 db cap in
  let fed := processed_frames 0 (Z.max 1 n) cap in
  r_raised r = false ∧
  tracker (r_counter r)
  = (updates (CentroidTracker_init 70 12)
             ((λ f, centroid <$> kept_boxes pc0 f) <$> fed)).1 ∧
  Z.of_nat (length fed) = Z.of_nat (length cap) / Z.max 1 n ∧
  (n ≤ 1 → fed = cap).
Proof.
  cbv zeta.
  destruct (run_reliable (PeopleCounter_init conf n) cap
              (PeopleCounter_init conf n) db Hreliable eq_refl)
    as (H1 & _ & H3).
  split_and!; [done|done| |].
  { rewrite processed_frames_length by lia.
    rewrite Z.add_0_l, Z.div_0_l by lia. lia. }
  intros Hn. rewrite Z.max_l by lia. clear. generalize 0.
  induction cap as [|f rest IH]; intros idx; [done|].
  cbn [processed_frames]. rewrite Z.mod_1_r.
  rewrite decide_False by (intros H; by apply H). by rewrite IH.
Qed.

Lemma tracker_sees_every_nth_frame_witness :
  outcomes (mkSink [] []) = [] ∧
  r_raised (generate_frames (PeopleCounter_init (1 # 2) 2) (mkSink [] [])
                            [mkFrame [] true; mkFrame [] true]) = false.
Proof.
  split; [reflexivity|].
  refine (proj1 (tracker_sees_every_nth_frame (1 # 2) 2 (mkSink [] [])
                   [mkFrame [] true; mkFrame [] true] _)).
  reflexivity.
Defined.

(** ** Confidence filter and encoding *)




(** X18. A frame that cannot be encoded is dropped from the output only:
    the tracker, the count, [last_seen], the frame index and the log end up
    exactly as if it had been encoded, and nothing is yielded for it. *)
Theorem encoding_failure_only_drops_output (pc : PeopleCounter)
    (db : EventSink) (results : list (list Box)) :
  (loop_body pc db (mkFrame results false)).1
  = (loop_body pc db (mkFrame results true)).1 ∧
  (∀ o, (loop_body pc db (mkFrame results false)).2 ≠ Yielded o) ∧
  ((loop_body pc db (mkFrame results true)).2 = Raised ↔
   (loop_body pc db (mkFrame results false)).2 = Raised) ∧
  ((loop_body pc db (mkFrame results true)).2 = Skipped ↔
   (loop_body pc db (mkFrame results false)).2 = Skipped).
Proof.
  unfold loop_body, kept_boxes. simpl.
  destruct (decide ((frame_index pc + 1) mod skip_frames pc ≠ 0)); [done|].
  destruct (update _ _) as [trk asg].
  destruct (aggregate _ _ _) as [[pc4 db4] ok].
  destruct ok; simpl; split_and!; done.
Qed.

(** ** The history route *)

(** X19. [/history] shows at most 200 events, newest first: its first row is
    the event [current_stats] reads, so the count on the index page is the
    count of that row (0 when there is none); and an event the sink has
    just accepted is the first row. *)
Theorem history_newest_first (pc : PeopleCounter) (db : EventSink)
    (e : CountEvent) :
  (length (history db) ≤ 200)%nat ∧
  head (history db) = sink_latest db ∧
  (current_stats pc db).2
  = default 0 (ev_lobby_count <$> head (history db)) ∧
  (∀ i : nat, (i < 200)%nat → (i < length (events db))%nat →
     history db !! i = events db !! (length (events db) - 1 - i)%nat) ∧
  ((sink_append db e).2 = true →
   head (history (sink_append db e).1) = Some e).
Proof.
  assert (∀ db, head (history db) = sink_latest db) as Hhead.
  { intros db0. unfold history, sink_latest. rewrite <- head_reverse.
    by destruct (reverse (events db0)). }
  split_and!.
  - unfold history. rewrite length_take. lia.
  - apply Hhead.
  - rewrite Hhead. unfold current_stats. simpl.
    by destruct (sink_latest db).
  - intros i Hi Hlt. unfold history. rewrite lookup_take_lt by done.
    rewrite reverse_lookup by done. f_equal. lia.
  - intros Hok. rewrite Hhead. unfold sink_latest.
    destruct (sink_append_cases db e) as [[_ ->]|[Hno _]]; [|congruence].
    apply last_snoc.
Qed.

(** ** [last_seen] across one frame *)

(** X20. After a processed frame that did not end on a failed append, in a
    pipeline started from a new [PeopleCounter], [last_seen] holds the
    current frame index for every id assigned in the frame; every other
    entry is as before, except that the entries of ids outside the new
    active set that are more than 90 frames old are gone. *)
Theorem last_seen_after_frame (conf : Q) (n : Z) (db0 : EventSink)
    (cap0 : list Frame) (db : EventSink) (f : Frame)
    (Hprocessed :
       let pc := r_counter (generate_frames (PeopleCounter_init conf n)
                                            db0 cap0) in
       (frame_index pc + 1) mod skip_frames pc = 0)
    (Hclean :
       (loop_body (r_counter (generate_frames (PeopleCounter_init conf n)
                                              db0 cap0)) db f).2 ≠ Raised) :
  let pc := r_counter (generate_frames (PeopleCounter_init conf n) db0 cap0) in
  let pc' := (loop_body pc db f).1.1 in
  let asg := (update (tracker pc) (centroid <$> kept_boxes pc f)).2 in
  ∀ k, last_seen pc' !! k =
       if decide (k ∈ asg) then Some (frame_index pc + 1)
       else match last_seen pc !! k with
            | Some v =>
                if decide ((k ∉ active_ids (tracker pc')) ∧
                           90 < frame_index pc + 1 - v)
                then None else Some v
            | None => None
            end.
Proof.
  cbv zeta in *.
  pose proof (generate_frames_inv cap0 _ db0 (pipeline_inv_init conf n))
    as Hinv.
  set (pc := r_counter _) in *.
  destruct (loop_body_processed pc db f Hprocessed)
    as (_ & _ & _ & _ & _ & Ht & _).
  destruct (loop_body_cases pc db f) as [[Hne _]|[_ Hrun]]; [done|].
  cbv zeta in Hrun. intros k. rewrite Ht. rewrite Hrun in Hclean |- *.
  clear Hrun.
  set (boxes := kept_boxes pc f) in *.
  pose proof (update_pair (tracker pc) (centroid <$> boxes)) as Hu.
  pose proof (update_spec _ _ _ _ (pi_tracker _ Hinv) Hu) as Hp.
  set (trk := (update (tracker pc) (centroid <$> boxes)).1) in *.
  set (asg := (update (tracker pc) (centroid <$> boxes)).2) in *.
  set (a := Z.of_nat _) in *. set (pc3 := _cleanup_stale_ids _ _) in *.
  pose proof (aggregate_fields a pc3 db) as (Hf1 & _ & Hf3 & _).
  destruct (aggregate a pc3 db) as [[pc4 db4] ok]. simpl in *.
  destruct ok; [|done]. simpl.
  assert (length asg = length boxes) as Hlen.
  { rewrite (up_len _ _ _ _ Hp). apply length_fmap. }
  rewrite lookup_stamp_seen, snd_zip by lia.
  rewrite Hf1, Hf3.
  destruct (decide (k ∈ asg)) as [Hk|Hk].
  - rewrite decide_True; [done|]. split; [done|]. intros ->.
    destruct (update_assigned _ _ _ _ (-1) (pi_tracker _ Hinv) Hu Hk)
      as [Hact|Hnew].
    + apply (wf_active _ (pi_tracker _ Hinv)) in Hact. lia.
    + pose proof (wf_next _ (pi_tracker _ Hinv)). lia.
  - rewrite decide_False by (by intros [? _]).
    pose proof (lookup_cleanup
                  (set_tracker trk (set_frame_index (frame_index pc + 1) pc))
                  (list_to_set (active_ids trk)) k) as Hlc.
    simpl in Hlc. rewrite Hlc.
    destruct (last_seen pc !! k) as [v|]; [|done].
    apply decide_ext. by rewrite elem_of_list_to_set.
Qed.

Lemma last_seen_after_frame_witness :
  let pc := r_counter (generate_frames (PeopleCounter_init (1 # 2) 1)
                                       (mkSink [] []) []) in
  let f := mkFrame [[mkBox 0 0 20 20 (9 # 10)]] true in
  (frame_index pc + 1) mod skip_frames pc = 0 ∧
  (loop_body pc (mkSink [] []) f).2 ≠ Raised ∧
  last_seen (loop_body pc (mkSink [] []) f).1.1 !! 0 = Some 1.
Proof.
  cbv zeta. split; [reflexivity|]. split; [by vm_compute|].
  refine (eq_trans (last_seen_after_frame (1 # 2) 1 (mkSink [] []) []
                      (mkSink [] [])
                      (mkFrame [[mkBox 0 0 20 20 (9 # 10)]] true) _ _ 0) _).
  - reflexivity.
  - by vm_compute.
  - by vm_compute.
Defined.
